(** * The receptionist of the semaphore restaurant

    A shallow embedding of [semSharedMemReceptionist.c]: the receptionist
    process of the restaurant problem, synchronised with System V semaphores
    over a shared memory region.

    The C code is sequential; what it shares with the other processes is
    the region [sh] and the semaphore set.  The embedding is a state and
    error monad over a [world] that holds the fields of the shared region
    the receptionist touches, its private [groupRecord] array, and a log of
    what it did, in program order.  The other processes appear as an
    [environment]: it says whether each semaphore operation succeeds and
    which request sits in the request slot when the receptionist is woken. *)

From Stdlib Require Import ZArith String.
From stdpp Require Import base list.

Local Open Scope Z_scope.

(** ** Machine integers *)

(** [int] is 32 bits wide; arithmetic on it is written with [wrap]. *)
Definition INT_MIN : Z := -2147483648.
Definition INT_MAX : Z := 2147483647.

Definition wrap (z : Z) : Z := (z + 2147483648) mod 4294967296 - 2147483648.

(** [stdlib.h] *)
Definition EXIT_SUCCESS : Z := 0.
Definition EXIT_FAILURE : Z := 1.

(** ** Constants *)

(** constants for groupRecord *)
Definition TOARRIVE : Z := 0.
Definition WAIT : Z := 1.
Definition ATTABLE : Z := 2.
Definition DONE : Z := 3.

(** The constants of [probConst.h].  The header is not part of the sources
    at hand, so the development is parametric in them. *)
Class ProbConst : Type := {
  MAXGROUPS : nat;         (* extent of the per-group arrays *)
  NUMTABLES : nat;         (* extent of the per-table arrays *)
  TABLEREQ : Z;            (* request kinds *)
  BILLREQ : Z;
  WAIT_FOR_REQUEST : Z;    (* receptionist states *)
  ASSIGNTABLE : Z;
  RECVPAY : Z
}.

(** ** Data *)

(** [request]: kind and issuing group. *)
Record request : Type := { reqType : Z; reqGroup : Z }.

(** The fields of [FULL_STAT] (the [fSt] member of the shared region) that
    the receptionist reads or writes. *)
Record FULL_STAT : Type := {
  receptionistStat : Z;        (* st.receptionistStat *)
  nGroups : Z;
  groupsWaiting : Z;
  assignedTable : list Z;      (* int assignedTable[MAXGROUPS] *)
  receptionistRequest : request
}.

(** The semaphores of the shared region, by the name of the member that
    holds their index. *)
Inductive semaphore : Type :=
| mutex
| receptionistRequestPossible
| receptionistReq
| waitForTable (g : Z)
| tableDone (t : Z).

(** What the receptionist does, in program order. *)
Inductive event : Type :=
| EvDown (s : semaphore)          (* semDown returned 0 *)
| EvUp (s : semaphore)            (* semUp returned 0 *)
| EvSemError (s : semaphore)      (* semDown or semUp returned -1 *)
| EvStat (v : Z)                  (* write of st.receptionistStat *)
| EvSaveState (f : FULL_STAT)     (* saveState (nFic, &sh->fSt) *)
| EvRead (r : request)            (* read of fSt.receptionistRequest *)
| EvDettach (ok : bool)           (* shmemDettach (sh) *)
| EvPerror (msg : string).

Record world : Type := {
  fSt : FULL_STAT;             (* sh->fSt *)
  groupRecord : list Z;        (* static int groupRecord[MAXGROUPS] *)
  semOps : nat;                (* semaphore operations issued so far *)
  delivered : nat;             (* requests received so far *)
  trace : list event
}.

(** The other processes and the kernel, as the receptionist sees them. *)
Record environment : Type := {
  sem_ok : nat -> bool;        (* does the k-th semaphore operation succeed *)
  incoming : nat -> request;   (* the k-th request put in the slot *)
  dettach_ok : bool            (* does shmemDettach succeed *)
}.

(** ** Field updates *)

Definition with_fSt (f : FULL_STAT -> FULL_STAT) (w : world) : world :=
  {| fSt := f (fSt w); groupRecord := groupRecord w; semOps := semOps w;
     delivered := delivered w; trace := trace w |}.

Definition with_groupRecord (r : list Z) (w : world) : world :=
  {| fSt := fSt w; groupRecord := r; semOps := semOps w;
     delivered := delivered w; trace := trace w |}.

Definition log (e : event) (w : world) : world :=
  {| fSt := fSt w; groupRecord := groupRecord w; semOps := semOps w;
     delivered := delivered w; trace := trace w ++ [e] |}.

Definition tick (w : world) : world :=
  {| fSt := fSt w; groupRecord := groupRecord w; semOps := S (semOps w);
     delivered := delivered w; trace := trace w |}.

Definition set_receptionistStat (v : Z) (f : FULL_STAT) : FULL_STAT :=
  {| receptionistStat := v; nGroups := nGroups f;
     groupsWaiting := groupsWaiting f; assignedTable := assignedTable f;
     receptionistRequest := receptionistRequest f |}.

Definition set_groupsWaiting (v : Z) (f : FULL_STAT) : FULL_STAT :=
  {| receptionistStat := receptionistStat f; nGroups := nGroups f;
     groupsWaiting := v; assignedTable := assignedTable f;
     receptionistRequest := receptionistRequest f |}.

Definition set_assignedTable (a : list Z) (f : FULL_STAT) : FULL_STAT :=
  {| receptionistStat := receptionistStat f; nGroups := nGroups f;
     groupsWaiting := groupsWaiting f; assignedTable := a;
     receptionistRequest := receptionistRequest f |}.

Definition set_receptionistRequest (r : request) (f : FULL_STAT) : FULL_STAT :=
  {| receptionistStat := receptionistStat f; nGroups := nGroups f;
     groupsWaiting := groupsWaiting f; assignedTable := assignedTable f;
     receptionistRequest := r |}.

(** A group has put the next request in the slot and raised
    [receptionistReq]: this is what the receptionist finds when its
    [semDown] on that semaphore returns. *)
Definition arrive (env : environment) (w : world) : world :=
  {| fSt := set_receptionistRequest (incoming env (delivered w)) (fSt w);
     groupRecord := groupRecord w; semOps := semOps w;
     delivered := S (delivered w); trace := trace w |}.

(** ** Arrays *)

(** An [int] array is a list; an access outside its extent has no defined
    behaviour in C and is [None] here. *)
Definition load (a : list Z) (i : Z) : option Z :=
  if 0 <=? i then a !! Z.to_nat i else None.

Definition store (a : list Z) (i v : Z) : option (list Z) :=
  if (0 <=? i) && (i <? Z.of_nat (length a))
  then Some (<[Z.to_nat i := v]> a) else None.

(** ** The monad *)

Inductive result (A : Type) : Type :=
| Ret (a : A) (w : world)          (* the call returns *)
| Exit (status : Z) (w : world)    (* exit (status) *)
| Fault (w : world)                (* access outside an array *)
| OutOfFuel.                       (* the model's loop bound was too small *)

Arguments Ret {A} a w.
Arguments Exit {A} status w.
Arguments Fault {A} w.
Arguments OutOfFuel {A}.

Definition M (A : Type) : Type := world -> result A.

Definition ret {A : Type} (a : A) : M A := fun w => Ret a w.

Definition bind {A B : Type} (m : M A) (k : A -> M B) : M B :=
  fun w =>
    match m w with
    | Ret a w' => k a w'
    | Exit status w' => Exit status w'
    | Fault w' => Fault w'
    | OutOfFuel => OutOfFuel
    end.

Declare Scope rest_scope.
Delimit Scope rest_scope with rest.
Notation "'call' x <- m ; k" := (bind m (fun x => k))
  (at level 10, x name, m at level 100, k at level 200,
   format "'[v' 'call'  x  <-  m ; '/' k ']'") : rest_scope.
Notation "'exec' m ; k" := (bind m (fun _ => k))
  (at level 10, m at level 100, k at level 200,
   format "'[v' 'exec'  m ; '/' k ']'") : rest_scope.

Local Open Scope rest_scope.

Definition fault {A : Type} : M A := fun w => Fault w.
Definition exit {A : Type} (status : Z) : M A := fun w => Exit status w.
Definition outOfFuel {A : Type} : M A := fun _ => OutOfFuel.
Definition gets {A : Type} (f : world -> A) : M A := fun w => Ret (f w) w.
Definition modify (f : world -> world) : M unit := fun w => Ret tt (f w).

Definition perror (msg : string) : M unit := modify (log (EvPerror msg)).

Definition saveState : M unit :=
  fun w => Ret tt (log (EvSaveState (fSt w)) w).

Definition setStat (v : Z) : M unit :=
  modify (fun w => log (EvStat v) (with_fSt (set_receptionistStat v) w)).

(** [int x = a[i]] and [a[i] = v] on the two arrays. *)
Definition assignedTableAt (i : Z) : M Z :=
  fun w => match load (assignedTable (fSt w)) i with
           | Some v => Ret v w
           | None => Fault w
           end.

Definition setAssignedTable (i v : Z) : M unit :=
  fun w => match store (assignedTable (fSt w)) i v with
           | Some a => Ret tt (with_fSt (set_assignedTable a) w)
           | None => Fault w
           end.

Definition groupRecordAt (g : Z) : M Z :=
  fun w => match load (groupRecord w) g with
           | Some v => Ret v w
           | None => Fault w
           end.

Definition setGroupRecord (g v : Z) : M unit :=
  fun w => match store (groupRecord w) g v with
           | Some r => Ret tt (with_groupRecord r w)
           | None => Fault w
           end.

Section Receptionist.

Context {pc : ProbConst}.
Variable env : environment.

(** [sh->waitForTable[n]] and [sh->tableDone[t]]: reads of the arrays of
    semaphore indices, of extent [MAXGROUPS] and [NUMTABLES]. *)
Definition waitForTableAt (n : Z) : M semaphore :=
  if (0 <=? n) && (n <? Z.of_nat MAXGROUPS) then ret (waitForTable n)
  else fault.

Definition tableDoneAt (t : Z) : M semaphore :=
  if (0 <=? t) && (t <? Z.of_nat NUMTABLES) then ret (tableDone t)
  else fault.

(** ** Semaphores *)

(** [semDown] and [semUp] return 0, or -1 on error.  A [semDown] that
    returns has waited as long as it had to; when it is on
    [receptionistReq], a request has arrived meanwhile. *)
Definition semDown (s : semaphore) : M Z :=
  fun w =>
    if sem_ok env (semOps w) then
      Ret 0 (log (EvDown s)
               (match s with
                | receptionistReq => arrive env (tick w)
                | _ => tick w
                end))
    else Ret (-1) (log (EvSemError s) (tick w)).

Definition semUp (s : semaphore) : M Z :=
  fun w =>
    if sem_ok env (semOps w) then Ret 0 (log (EvUp s) (tick w))
    else Ret (-1) (log (EvSemError s) (tick w)).

(** [if (op == -1) { perror (msg); exit (EXIT_FAILURE); }] *)
Definition orDie (op : M Z) (msg : string) : M unit :=
  call r <- op;
  if r =? -1 then (exec perror msg; exit EXIT_FAILURE) else ret tt.

Definition shmemDettach : M Z :=
  fun w => Ret (if dettach_ok env then 0 else -1)
               (log (EvDettach (dettach_ok env)) w).

(** ** decideTableOrWait *)

(** The [for] loop of [decideTableOrWait], [k] iterations from index [i]
    on; a [break] leaves it with [tableId = -1]. *)
Fixpoint tableScan (k : nat) (i tableId num_tables : Z) : M Z :=
  match k with
  | O => ret tableId
  | S k' =>
      call a <- assignedTableAt i;
      if a =? 1 then
        if num_tables =? 0 then tableScan k' (i + 1) 0 (num_tables + 1)
        else ret (-1)
      else if a =? 0 then
        if num_tables =? 0 then tableScan k' (i + 1) 1 (num_tables + 1)
        else ret (-1)
      else tableScan k' (i + 1) tableId num_tables
  end.

Definition decideTableOrWait (n : Z) : M Z :=
  call tableId <- tableScan MAXGROUPS 0 0 0;
  if negb (tableId =? -1) then
    exec setGroupRecord n ATTABLE;
    ret tableId
  else
    exec setGroupRecord n WAIT;
    exec modify (with_fSt (fun f => set_groupsWaiting (wrap (groupsWaiting f + 1)) f));
    ret (-1).

(** ** decideNextGroup *)

(** The [for] loop of [decideNextGroup], [k] iterations from group [g]
    on; falling out of it reaches the final [return -1]. *)
Fixpoint nextGroupScan (k : nat) (g : Z) : M Z :=
  match k with
  | O => ret (-1)
  | S k' =>
      call r <- groupRecordAt g;
      if r =? WAIT then
        exec setGroupRecord g ATTABLE;
        exec modify (with_fSt (fun f => set_groupsWaiting (wrap (groupsWaiting f - 1)) f));
        ret g
      else nextGroupScan k' (g + 1)
  end.

Definition decideNextGroup : M Z :=
  call gw <- gets (fun w => groupsWaiting (fSt w));
  if gw =? 0 then ret (-1)
  else nextGroupScan MAXGROUPS 0.

(** ** waitForGroup *)

Definition waitForGroup : M request :=
  exec orDie (semDown mutex) "error on the up operation for semaphore access (WT)";
  exec setStat WAIT_FOR_REQUEST;
  exec saveState;
  exec orDie (semUp mutex) "error on the down operation for semaphore access (WT)";
  exec orDie (semDown receptionistReq) "error on the up operation for semaphore access (PT)";
  exec orDie (semDown mutex) "error on the up operation for semaphore access (WT)";
  call req <- gets (fun w => receptionistRequest (fSt w));
  exec modify (log (EvRead req));
  exec orDie (semUp mutex) "error on the down operation for semaphore access (WT)";
  exec orDie (semUp receptionistRequestPossible) "error on the up operation for semaphore access (PT)";
  ret req.

(** ** provideTableOrWaitingRoom *)

Definition provideTableOrWaitingRoom (n : Z) : M unit :=
  exec orDie (semDown mutex) "error on the up operation for semaphore access (WT)";
  exec setStat ASSIGNTABLE;
  exec saveState;
  call tableId <- decideTableOrWait n;
  exec (if negb (tableId =? -1) then
          exec setAssignedTable n tableId;
          call s <- waitForTableAt n;
          orDie (semUp s) "error on the up operation for semaphore access (PT)"
        else ret tt);
  orDie (semUp mutex) "error on the down operation for semaphore access (WT)".

(** ** receivePayment *)

Definition receivePayment (n : Z) : M unit :=
  exec orDie (semDown mutex) "error on the up operation for semaphore access (WT)";
  exec setStat RECVPAY;
  exec saveState;
  call tableId <- assignedTableAt n;
  call groupId <- decideNextGroup;
  exec (if negb (groupId =? -1) then
          exec setAssignedTable groupId tableId;
          exec setGroupRecord n DONE;
          call s <- waitForTableAt groupId;
          orDie (semUp s) "error on the up operation for semaphore access (PT)"
        else ret tt);
  exec setAssignedTable n (-1);
  exec orDie (semUp mutex) "error on the down operation for semaphore access (WT)";
  call s <- tableDoneAt tableId;
  orDie (semUp s) "error on the up operation for semaphore access (PT)".

(** ** main: the life cycle of the receptionist *)

(** The [switch] on the request kind.  It has no [default] label. *)
Definition dispatch (req : request) : M unit :=
  if reqType req =? TABLEREQ then provideTableOrWaitingRoom (reqGroup req)
  else if reqType req =? BILLREQ then receivePayment (reqGroup req)
  else ret tt.

(** The [while] loop of [main].  [fuel] bounds the iterations of the
    model; the loop condition is the one of the source. *)
Fixpoint lifeCycle (fuel : nat) (nReq : Z) : M unit :=
  call n <- gets (fun w => nGroups (fSt w));
  if nReq <? wrap (n * 2) then
    match fuel with
    | O => outOfFuel
    | S fuel' =>
        call req <- waitForGroup;
        exec dispatch req;
        lifeCycle fuel' (wrap (nReq + 1))
    end
  else ret tt.

(** [main] from the simulation of the life cycle on: the loop, the
    unmapping of the shared region, the exit status.  What comes before
    (command line, connection to the semaphore set and the region) is
    start-up and not modelled. *)
Definition main (fuel : nat) : M Z :=
  exec lifeCycle fuel 0;
  call d <- shmemDettach;
  if d =? -1 then
    exec perror "error on unmapping the shared region off the process address space";
    ret EXIT_FAILURE
  else ret EXIT_SUCCESS.

End Receptionist.

(** * main before the life cycle *)

(** ** The internal memory of the receptionist *)

(** [for (g = 0; g < sh->fSt.nGroups; g++) groupRecord[g] = TOARRIVE;]
    from [g] on.  [fuel] bounds the iterations of the model; the loop
    condition is the one of the source. *)
Fixpoint initGroupRecord (fuel : nat) (g : Z) : M unit :=
  call n <- gets (fun w => nGroups (fSt w));
  if g <? n then
    match fuel with
    | O => outOfFuel
    | S fuel' =>
        exec setGroupRecord g TOARRIVE;
        initGroupRecord fuel' (wrap (g + 1))
    end
  else ret tt.

(** ** Command line and connections *)

(** What [main] calls before it has the shared region: [strtol] of the C
    library, and the connection functions of [semaphore.h] and
    [sharedMemory.h], which are not among the sources.  [strtol] gives
    the value and the characters it left unread, the ones [tinp] points
    at; the connection functions give an identifier, or -1. *)
Record system : Type := {
  strtol : string -> Z * string;
  semConnect : Z -> Z;
  shmemConnect : Z -> Z;
  shmemAttach : Z -> Z
}.

(** [static char nFic[51]] *)
Definition NFIC_SIZE : nat := 51.

(** How the start of [main] ends: it returns EXIT_FAILURE after a message
    on [stderr], which was reopened on the file [errFile]; or [strcpy]
    writes past [nFic]; or the process is connected and attached. *)
Inductive started : Type :=
| Refused (errFile message : string)
| Overrun
| Attached (nFic : string) (semgid shmid : Z).

(** [main] up to the attachment of the shared region.  [argv] has [argc]
    entries.  The operations on [stderr] are taken to succeed. *)
Definition startup (sys : system) (argv : list string) : started :=
  match argv with
  | [_; name; keyArg; errName] =>
      (* strcpy (nFic, argv[1]) writes the characters and the final 0 *)
      if (NFIC_SIZE <=? String.length name)%nat then Overrun
      else
        let (value, rest) := strtol sys keyArg in
        (* key = (unsigned int) strtol (...), stored in an int *)
        let key := wrap value in
        if negb (String.eqb rest "") then
          Refused errName "Error on the access key communication!"
        else
          let semgid := semConnect sys key in
          if semgid =? -1 then
            Refused errName "error on connecting to the semaphore set"
          else
            let shmid := shmemConnect sys key in
            if shmid =? -1 then
              Refused errName "error on connecting to the shared memory region"
            else if shmemAttach sys shmid =? -1 then
              Refused errName
                "error on mapping the shared region on the process address space"
            else Attached name semgid shmid
  | _ => Refused "error_RT" "Number of parameters is incorrect!"
  end.

(** The whole of [main]; the world is the shared region at the time of
    the attachment, and the ledger of the receptionist.  The seeding of
    the random generator is left out: nothing in this file draws from
    it. *)
Definition receptionist {pc : ProbConst} (sys : system) (env : environment)
    (argv : list string) (fuel : nat) : M Z :=
  match startup sys argv with
  | Refused _ _ => ret EXIT_FAILURE
  | Overrun => fault
  | Attached _ _ _ =>
      exec initGroupRecord fuel 0;
      main env fuel
  end.

(** * Notions used in the statements *)

(** Number of entries of the ledger in the waiting phase. *)
Fixpoint countWaiting (r : list Z) : Z :=
  match r with
  | [] => 0
  | v :: r' => (if v =? WAIT then 1 else 0) + countWaiting r'
  end.

(** [groupsWaiting] agrees with the ledger. *)
Definition ledger_consistent (w : world) : Prop :=
  groupsWaiting (fSt w) = countWaiting (groupRecord w).

(** [g] is the waiting group with the smallest id. *)
Definition firstWaiting (r : list Z) (g : Z) : Prop :=
  load r g = Some WAIT /\ forall j, 0 <= j < g -> load r j <> Some WAIT.

(** The body of the loop of [decideNextGroup] at a waiting group [g]. *)
Definition seat (g : Z) (w : world) : world :=
  with_fSt (fun f => set_groupsWaiting (wrap (groupsWaiting f - 1)) f)
    (with_groupRecord (<[Z.to_nat g := ATTABLE]> (groupRecord w)) w).

(** What a semaphore operation leaves behind: [downed] and [upped] when
    it succeeds, [died] after the [perror] of the failure path. *)
Definition downed (env : environment) (s : semaphore) (w : world) : world :=
  log (EvDown s)
    (match s with
     | receptionistReq => arrive env (tick w)
     | _ => tick w
     end).

Definition upped (s : semaphore) (w : world) : world := log (EvUp s) (tick w).

Definition died (s : semaphore) (msg : string) (w : world) : world :=
  log (EvPerror msg) (log (EvSemError s) (tick w)).

(** The start of a handler: write the status, log the state. *)
Definition published (v : Z) (w : world) : world :=
  log (EvSaveState (set_receptionistStat v (fSt w)))
    (log (EvStat v) (with_fSt (set_receptionistStat v) w)).

(** The same, after the lock was taken. *)
Definition entered (env : environment) (v : Z) (w : world) : world :=
  published v (downed env mutex w).

(** The grant of table [t] to group [n]: the binding, then the signal. *)
Definition granted (n t : Z) (w : world) : world :=
  upped (waitForTable n)
    (with_fSt (set_assignedTable (<[Z.to_nat n := t]> (assignedTable (fSt w)))) w).

(** The hand-over branch of [receivePayment]: table [t] goes from the
    paying group [n] to the waiting group [g]. *)
Definition handedOver (n g t : Z) (w : world) : world :=
  upped (waitForTable g)
    (with_groupRecord (<[Z.to_nat n := DONE]> (groupRecord w))
       (with_fSt (set_assignedTable (<[Z.to_nat g := t]> (assignedTable (fSt w)))) w)).

(** The end of [receivePayment]: the entry of [n] is cleared, the lock
    released, the table [t] signalled. *)
Definition vacated (n t : Z) (w : world) : world :=
  upped (tableDone t)
    (upped mutex
       (with_fSt (set_assignedTable (<[Z.to_nat n := -1]> (assignedTable (fSt w)))) w)).

(** The states the receptionist can be in between two of its operations,
    from [w0] on: each step is an operation that returned. *)
Inductive reachable {pc : ProbConst} (env : environment) (w0 : world) : world -> Prop :=
| reach_start : reachable env w0 w0
| reach_waitForGroup (w w' : world) (req : request) :
    reachable env w0 w -> waitForGroup env w = Ret req w' ->
    reachable env w0 w'
| reach_provideTableOrWaitingRoom (w w' : world) (n : Z) :
    reachable env w0 w -> provideTableOrWaitingRoom env n w = Ret tt w' ->
    reachable env w0 w'
| reach_receivePayment (w w' : world) (n : Z) :
    reachable env w0 w -> receivePayment env n w = Ret tt w' ->
    reachable env w0 w'.

(** The world [waitForGroup] returns in. *)
Definition received {pc : ProbConst} (env : environment) (w : world) : world :=
  let w1 := downed env mutex
              (downed env receptionistReq
                 (upped mutex (entered env WAIT_FOR_REQUEST w))) in
  upped receptionistRequestPossible
    (upped mutex (log (EvRead (receptionistRequest (fSt w1))) w1)).

(** No table is bound to two groups: [-1] is the mark of a group without
    table. *)
Definition no_double_booking (a : list Z) : Prop :=
  forall i j t : Z, load a i = Some t -> load a j = Some t -> t <> -1 -> i = j.

(** The table record as the code leaves it: of the extent the scan of
    [decideTableOrWait] covers, and without a table bound twice. *)
Definition booked_once {pc : ProbConst} (w : world) : Prop :=
  (length (assignedTable (fSt w)) <= MAXGROUPS)%nat /\
  no_double_booking (assignedTable (fSt w)).

(** The last statements of [receivePayment], from the clearing of the
    entry of the paying group on. *)
Definition leaveTable {pc : ProbConst} (env : environment) (n tableId : Z) : M unit :=
  exec setAssignedTable n (-1);
  exec orDie (semUp env mutex) "error on the down operation for semaphore access (WT)";
  call s <- tableDoneAt tableId;
  orDie (semUp env s) "error on the up operation for semaphore access (PT)".

(** The call ends as C defines it: it returns or it exits. *)
Definition defined {A : Type} (r : result A) : Prop :=
  match r with
  | Ret _ _ => True
  | Exit _ _ => True
  | Fault _ => False
  | OutOfFuel => False
  end.

(** The semaphore operations numbered [a] to [b - 1] all succeed. *)
Definition sems_ok_between (env : environment) (a b : nat) : Prop :=
  forall k : nat, (a <= k < b)%nat -> sem_ok env k = true.

(** Requests received by a successful [semDown] on [s]. *)
Definition requests (s : semaphore) : nat :=
  match s with
  | receptionistReq => 1%nat
  | _ => 0%nat
  end.

(** How a call that started in [w] and ended with [r] dealt with the
    semaphores.  If it returned, every operation it issued succeeded, and
    it received [d] requests.  If it exited, the status is EXIT_FAILURE,
    and the last operation it issued is the first that failed.  It does
    not touch [nGroups]. *)
Definition orderly_from (env : environment) {A : Type} (d : nat) (w : world)
    (r : result A) : Prop :=
  match r with
  | Ret _ w' =>
      (semOps w <= semOps w')%nat /\
      sems_ok_between env (semOps w) (semOps w') /\
      nGroups (fSt w') = nGroups (fSt w) /\
      delivered w' = (delivered w + d)%nat
  | Exit status w' =>
      status = EXIT_FAILURE /\
      (semOps w < semOps w')%nat /\
      sems_ok_between env (semOps w) (semOps w' - 1) /\
      sem_ok env (semOps w' - 1) = false
  | Fault _ => True
  | OutOfFuel => False
  end.

Definition orderly (env : environment) {A : Type} (d : nat) (m : M A) : Prop :=
  forall w : world, orderly_from env d w (m w).

(** ** The decision of decideTableOrWait, in closed form *)

(** An entry of the table record that the scan of [decideTableOrWait]
    looks at: table 0 or table 1. *)
Definition isTable (v : Z) : bool := (v =? 0) || (v =? 1).

(** The entries 0 and 1 of the table record, in the order of the groups. *)
Definition occupied (a : list Z) : list Z := List.filter isTable a.

(** Nobody at table 0 or 1: table 0.  One group: the other table.  Two
    entries or more: no table. *)
Definition tableFor (a : list Z) : Z :=
  match occupied a with
  | [] => 0
  | [v] => 1 - v
  | _ :: _ :: _ => -1
  end.

(** ** Failures *)

(** The call ended in [r] because its first semaphore operation, the
    [semDown] on the lock, failed: the process exits with EXIT_FAILURE
    after the [perror], and the shared region and the ledger are as in
    [w]. *)
Definition dies_at_entry {A : Type} (r : result A) (w : world) : Prop :=
  exists w' : world,
    r = Exit EXIT_FAILURE w' /\
    fSt w' = fSt w /\
    groupRecord w' = groupRecord w /\
    trace w' =
      trace w ++
      [EvSemError mutex;
       EvPerror "error on the up operation for semaphore access (WT)"].

(** What the call that started in [w] and ended in [w'] added to the
    log. *)
Definition logged (w w' : world) : list event :=
  drop (length (trace w)) (trace w').

(** ** The table record over a run *)

(** Every entry of the table record is -1, 0 or 1. *)
Definition table_ids (a : list Z) : Prop :=
  forall i t : Z, load a i = Some t -> t = -1 \/ t = 0 \/ t = 1.

(** ** The lock through a log *)

(** The lock after the event [e], when it was held or not before; [None]
    when the event is out of place: the lock taken twice or released when
    free; the status written, the state logged, the request read or a
    group signalled without the lock; a wait for a request, the release of
    the request slot, the signal of a table or the unmapping of the region
    under the lock; a failed semaphore operation. *)
Definition lockStep (held : bool) (e : event) : option bool :=
  match e with
  | EvDown mutex => if held then None else Some true
  | EvUp mutex => if held then Some false else None
  | EvStat _ | EvSaveState _ | EvRead _ | EvUp (waitForTable _) =>
      if held then Some true else None
  | EvDown receptionistReq | EvUp receptionistRequestPossible
  | EvUp (tableDone _) | EvDettach _ =>
      if held then None else Some false
  | EvPerror _ => Some held
  | _ => None
  end.

Fixpoint bracketed (held : bool) (tr : list event) : option bool :=
  match tr with
  | [] => Some held
  | e :: tr' =>
      match lockStep held e with
      | Some held' => bracketed held' tr'
      | None => None
      end
  end.

(** The call that started in [w] and ended in [w'] added to the log a
    sequence of events in which the lock is used in order, and left the
    lock free. *)
Definition in_order (w w' : world) : Prop :=
  exists delta : list event,
    trace w' = trace w ++ delta /\ bracketed false delta = Some false.

(** ** A small restaurant *)

Module Demo.

(** Modelled from the spec: the values of [probConst.h], which is not among
    the sources.  Two tables (the decision of [decideTableOrWait] is
    written for the table ids 0 and 1) and room for four groups; the
    request kinds and the receptionist states are numbered from their
    order of appearance. *)
#[global] Instance consts : ProbConst := {|
  MAXGROUPS := 4;
  NUMTABLES := 2;
  TABLEREQ := 1;
  BILLREQ := 2;
  WAIT_FOR_REQUEST := 0;
  ASSIGNTABLE := 1;
  RECVPAY := 2
|}.

Definition mkRequest (kind group : Z) : request :=
  {| reqType := kind; reqGroup := group |}.

Definition mkWorld (n gw : Z) (tables ledger : list Z) : world :=
  {| fSt := {| receptionistStat := 0; nGroups := n; groupsWaiting := gw;
               assignedTable := tables;
               receptionistRequest := mkRequest 0 0 |};
     groupRecord := ledger; semOps := 0; delivered := 0; trace := [] |}.

(** The restaurant opens: nobody has a table, nobody has arrived. *)
Definition opening (n : Z) : world :=
  mkWorld n 0 [-1; -1; -1; -1] [TOARRIVE; TOARRIVE; TOARRIVE; TOARRIVE].

(** Groups 0 and 1 sit at tables 0 and 1. *)
Definition full : world :=
  mkWorld 4 0 [0; 1; -1; -1] [ATTABLE; ATTABLE; TOARRIVE; TOARRIVE].

(** Groups 0 and 1 sit, groups 2 and 3 wait. *)
Definition queue : world :=
  mkWorld 4 2 [0; 1; -1; -1] [ATTABLE; ATTABLE; WAIT; WAIT].

(** Group 0 sits at table 0, nobody waits. *)
Definition single : world :=
  mkWorld 4 0 [0; -1; -1; -1] [ATTABLE; TOARRIVE; TOARRIVE; TOARRIVE].

(** Every semaphore operation succeeds and the requests are [reqs], then
    requests of kind 0 from group 0. *)
Definition calm (reqs : list request) : environment :=
  {| sem_ok := fun _ => true;
     incoming := fun k => nth k reqs (mkRequest 0 0);
     dettach_ok := true |}.

(** As [calm], but the unmapping of the shared region fails. *)
Definition stuck (reqs : list request) : environment :=
  {| sem_ok := fun _ => true;
     incoming := fun k => nth k reqs (mkRequest 0 0);
     dettach_ok := false |}.

(** As [calm], but the semaphore operation numbered [k] fails. *)
Definition failing (k : nat) (reqs : list request) : environment :=
  {| sem_ok := fun i => negb (Nat.eqb i k);
     incoming := fun i => nth i reqs (mkRequest 0 0);
     dettach_ok := true |}.

(** A system in which the key "1234" is read in full and every other
    argument is left unread, and every connection succeeds. *)
Definition machine : system :=
  {| strtol := fun s => if String.eqb s "1234" then (1234, EmptyString) else (0, s);
     semConnect := fun key => key + 1;
     shmemConnect := fun key => key + 2;
     shmemAttach := fun _ => 0 |}.

(** Two groups: each asks for a table, then for the bill. *)
Definition service : list request :=
  [mkRequest 1 0; mkRequest 1 1; mkRequest 2 0; mkRequest 2 1].

End Demo.

(** * Properties *)

(** ** Machine integers and arrays *)

Lemma wrap_id (z : Z) : INT_MIN <= z <= INT_MAX -> wrap z = z.
Proof.
  unfold INT_MIN, INT_MAX, wrap. intros Hz.
  rewrite Z.mod_small by lia. lia.
Qed.

Lemma load_Some_range (a : list Z) (i v : Z) :
  load a i = Some v -> 0 <= i < Z.of_nat (length a).
Proof.
  unfold load. destruct (Z.leb_spec 0 i) as [Hi|Hi]; [|discriminate].
  intros Hl. apply lookup_lt_Some in Hl. lia.
Qed.

Lemma load_in_range (a : list Z) (i : Z) :
  0 <= i < Z.of_nat (length a) -> exists v, load a i = Some v.
Proof.
  intros Hi. unfold load. destruct (Z.leb_spec 0 i); [|lia].
  destruct (lookup_lt_is_Some_2 a (Z.to_nat i)) as [v Hv]; [lia|].
  exists v. exact Hv.
Qed.

Lemma load_cons (v : Z) (a : list Z) (i : Z) :
  0 <= i -> load (v :: a) (i + 1) = load a i.
Proof.
  intros Hi. unfold load.
  destruct (Z.leb_spec 0 (i + 1)); [|lia]. destruct (Z.leb_spec 0 i); [|lia].
  replace (Z.to_nat (i + 1)) with (S (Z.to_nat i)) by lia. reflexivity.
Qed.

Lemma store_Some_inv (a a' : list Z) (i v : Z) :
  store a i v = Some a' ->
  0 <= i < Z.of_nat (length a) /\ a' = <[Z.to_nat i := v]> a.
Proof.
  unfold store.
  destruct (Z.leb_spec 0 i), (Z.ltb_spec i (Z.of_nat (length a)));
    simpl; intros Hs; inversion Hs; subst; split; (lia || reflexivity).
Qed.

Lemma store_in_range (a : list Z) (i v : Z) :
  0 <= i < Z.of_nat (length a) -> store a i v = Some (<[Z.to_nat i := v]> a).
Proof.
  intros Hi. unfold store.
  destruct (Z.leb_spec 0 i), (Z.ltb_spec i (Z.of_nat (length a)));
    simpl; (reflexivity || lia).
Qed.

Lemma store_None_iff (a : list Z) (i v : Z) :
  store a i v = None <-> ~ (0 <= i < Z.of_nat (length a)).
Proof.
  unfold store.
  destruct (Z.leb_spec 0 i), (Z.ltb_spec i (Z.of_nat (length a)));
    simpl; split; intros; (reflexivity || discriminate || lia).
Qed.

Lemma load_insert_eq (a : list Z) (i v : Z) :
  0 <= i < Z.of_nat (length a) -> load (<[Z.to_nat i := v]> a) i = Some v.
Proof.
  intros Hi. unfold load. destruct (Z.leb_spec 0 i); [|lia].
  apply list_lookup_insert_eq. lia.
Qed.

Lemma load_insert_ne (a : list Z) (i j v : Z) :
  0 <= i -> i <> j -> load (<[Z.to_nat i := v]> a) j = load a j.
Proof.
  intros Hi Hne. unfold load. destruct (Z.leb_spec 0 j); [|reflexivity].
  apply list_lookup_insert_ne. lia.
Qed.

Lemma load_insert (a : list Z) (i j v : Z) :
  0 <= i < Z.of_nat (length a) ->
  load (<[Z.to_nat i := v]> a) j = if j =? i then Some v else load a j.
Proof.
  intros Hi. destruct (Z.eqb_spec j i) as [->|Hne].
  - apply load_insert_eq. exact Hi.
  - apply load_insert_ne; lia.
Qed.

Lemma load_length (a : list Z) (i v : Z) (n : nat) :
  (length a <= n)%nat -> load a i = Some v -> 0 <= i < Z.of_nat n.
Proof. intros Hn Hl. apply load_Some_range in Hl. lia. Qed.

(** ** The monad *)

Lemma bind_Ret_inv {A B : Type} (m : M A) (k : A -> M B) (w w' : world) (b : B) :
  bind m k w = Ret b w' -> exists a w1, m w = Ret a w1 /\ k a w1 = Ret b w'.
Proof.
  unfold bind. destruct (m w) as [a w1| | |]; try discriminate.
  intros Hk. exists a, w1. split; [reflexivity|exact Hk].
Qed.

Lemma bind_Ret {A B : Type} (m : M A) (k : A -> M B) (w w1 : world) (a : A) :
  m w = Ret a w1 -> bind m k w = k a w1.
Proof. intros Hm. unfold bind. rewrite Hm. reflexivity. Qed.

Lemma bind_Fault {A B : Type} (m : M A) (k : A -> M B) (w w1 : world) :
  m w = Fault w1 -> bind m k w = Fault w1.
Proof. intros Hm. unfold bind. rewrite Hm. reflexivity. Qed.

Lemma bind_Exit {A B : Type} (m : M A) (k : A -> M B) (w w1 : world) (st : Z) :
  m w = Exit st w1 -> bind m k w = Exit st w1.
Proof. intros Hm. unfold bind. rewrite Hm. reflexivity. Qed.

(** ** The ledger and the waiting counter *)

Lemma countWaiting_bounds (r : list Z) :
  0 <= countWaiting r <= Z.of_nat (length r).
Proof.
  induction r as [|v r IH]; simpl; [lia|].
  destruct (v =? WAIT); lia.
Qed.

Lemma countWaiting_zero (r : list Z) (j : Z) :
  countWaiting r = 0 -> load r j <> Some WAIT.
Proof.
  revert j. induction r as [|v r IH]; intros j Hc.
  - unfold load. destruct (0 <=? j); [rewrite lookup_nil|]; discriminate.
  - simpl in Hc. pose proof (countWaiting_bounds r) as Hb.
    destruct (Z.eqb_spec v WAIT) as [Hv|Hv]; [lia|].
    destruct (Z.eq_dec j 0) as [->|Hj].
    + unfold load. simpl. congruence.
    + destruct (Z.leb_spec 0 j) as [Hj0|Hj0].
      * replace j with ((j - 1) + 1) by lia. rewrite load_cons by lia.
        apply IH. lia.
      * unfold load. destruct (Z.leb_spec 0 j); [lia|discriminate].
Qed.

Lemma countWaiting_insert (r : list Z) (i : nat) (v old : Z) :
  r !! i = Some old ->
  countWaiting (<[i := v]> r) =
  countWaiting r - (if old =? WAIT then 1 else 0) + (if v =? WAIT then 1 else 0).
Proof.
  revert i. induction r as [|x r IH]; intros i Hi.
  - rewrite lookup_nil in Hi. discriminate.
  - destruct i as [|i]; simpl in *.
    + inversion Hi; subst. lia.
    + rewrite (IH i Hi). lia.
Qed.

Lemma countWaiting_store (r r' : list Z) (g v old : Z) :
  load r g = Some old -> store r g v = Some r' ->
  countWaiting r' =
  countWaiting r - (if old =? WAIT then 1 else 0) + (if v =? WAIT then 1 else 0).
Proof.
  intros Hl Hs. apply store_Some_inv in Hs as [Hg ->].
  apply countWaiting_insert. unfold load in Hl.
  destruct (Z.leb_spec 0 g); [exact Hl|lia].
Qed.

Section Allocation.

Context {pc : ProbConst}.

(** What the loop of [decideNextGroup] yields, by cases. *)
Lemma nextGroupScan_cases (k : nat) (g : Z) (w : world) :
  0 <= g ->
  match nextGroupScan k g w with
  | Ret x w' =>
      (x = -1 /\ w' = w /\
       forall j, g <= j < g + Z.of_nat k -> load (groupRecord w) j <> Some WAIT)
      \/
      (g <= x < g + Z.of_nat k /\ load (groupRecord w) x = Some WAIT /\
       (forall j, g <= j < x -> load (groupRecord w) j <> Some WAIT) /\
       w' = seat x w)
  | Fault w' => w' = w /\ Z.of_nat (length (groupRecord w)) < g + Z.of_nat k
  | Exit _ _ => False
  | OutOfFuel => False
  end.
Proof.
  revert g. induction k as [|k IH]; intros g Hg.
  - simpl. left. repeat split. intros j Hj. lia.
  - cbn [nextGroupScan]. unfold bind at 1, groupRecordAt.
    destruct (load (groupRecord w) g) as [v|] eqn:Hl.
    + destruct (Z.eqb_spec v WAIT) as [Hv|Hv].
      * subst v. pose proof (load_Some_range _ _ _ Hl) as Hr.
        unfold bind, setGroupRecord. rewrite (store_in_range _ _ _ Hr).
        unfold modify, ret. right.
        split; [lia|split; [exact Hl|split; [intros j Hj; lia|reflexivity]]].
      * specialize (IH (g + 1) ltac:(lia)).
        destruct (nextGroupScan k (g + 1) w) as [x w'|st w'|w'|]; try exact IH.
        -- destruct IH as [(Hx & Hw & Hall)|(Hx & Hlx & Hall & Hw)].
           ++ left. repeat split; try assumption. intros j Hj.
              destruct (Z.eq_dec j g) as [->|Hne]; [congruence|].
              apply Hall. lia.
           ++ right. repeat split; try assumption; try lia. intros j Hj.
              destruct (Z.eq_dec j g) as [->|Hne]; [congruence|].
              apply Hall. lia.
        -- destruct IH as [Hw Hlen]. split; [exact Hw|lia].
    + split; [reflexivity|].
      destruct (Z.ltb_spec g (Z.of_nat (length (groupRecord w)))) as [Hlt|Hge]; [|lia].
      destruct (load_in_range (groupRecord w) g ltac:(lia)) as [v Hv]. congruence.
Qed.

Lemma firstWaiting_unique (r : list Z) (g g' : Z) :
  firstWaiting r g -> firstWaiting r g' -> g = g'.
Proof.
  intros [Hg Hlt] [Hg' Hlt'].
  pose proof (load_Some_range _ _ _ Hg). pose proof (load_Some_range _ _ _ Hg').
  destruct (Z.lt_trichotomy g g') as [Hc|[Hc|Hc]]; [|exact Hc|].
  - exfalso. apply (Hlt' g); [lia|exact Hg].
  - exfalso. apply (Hlt g'); [lia|exact Hg'].
Qed.

(** [decideNextGroup], by cases: nothing is waiting according to the
    counter or to the ledger, or the first waiting group is seated. *)
Lemma decideNextGroup_cases (w : world) :
  length (groupRecord w) = MAXGROUPS ->
  (decideNextGroup w = Ret (-1) w /\
   (groupsWaiting (fSt w) = 0 \/
    forall j, load (groupRecord w) j <> Some WAIT))
  \/
  (exists g, groupsWaiting (fSt w) <> 0 /\ firstWaiting (groupRecord w) g /\
             decideNextGroup w = Ret g (seat g w)).
Proof.
  intros Hlen. unfold decideNextGroup, bind, gets.
  destruct (Z.eqb_spec (groupsWaiting (fSt w)) 0) as [Hz|Hnz].
  - left. split; [reflexivity|left; exact Hz].
  - pose proof (nextGroupScan_cases MAXGROUPS 0 w ltac:(lia)) as Hc.
    destruct (nextGroupScan MAXGROUPS 0 w) as [x w'|st w'|w'|];
      [|contradiction|exfalso; lia|contradiction].
    destruct Hc as [(Hx & Hw & Hall)|(Hx & Hlx & Hall & Hw)].
    + left. subst. split; [reflexivity|]. right. intros j Hj.
      pose proof (load_Some_range _ _ _ Hj). apply (Hall j); [lia|exact Hj].
    + right. exists x. subst w'.
      split; [exact Hnz|split; [split; [exact Hlx|exact Hall]|reflexivity]].
Qed.

End Allocation.

(** ** decideNextGroup *)

Section NextGroup.

Context {pc : ProbConst}.

Lemma seat_fields (g : Z) (w : world) :
  groupRecord (seat g w) = <[Z.to_nat g := ATTABLE]> (groupRecord w) /\
  groupsWaiting (fSt (seat g w)) = wrap (groupsWaiting (fSt w) - 1) /\
  assignedTable (fSt (seat g w)) = assignedTable (fSt w) /\
  nGroups (fSt (seat g w)) = nGroups (fSt w) /\
  semOps (seat g w) = semOps w /\ delivered (seat g w) = delivered w /\
  trace (seat g w) = trace w.
Proof. repeat split. Qed.

Lemma countWaiting_some (r : list Z) :
  countWaiting r <> 0 -> exists j : Z, load r j = Some WAIT.
Proof.
  induction r as [|v r IH]; simpl; intros Hc; [contradiction|].
  destruct (Z.eqb_spec v WAIT) as [Hv|Hv].
  - exists 0. unfold load. simpl. congruence.
  - destruct (IH ltac:(lia)) as [j Hj]. exists (j + 1).
    pose proof (load_Some_range _ _ _ Hj). rewrite load_cons by lia. exact Hj.
Qed.

(** C3, as the code has it.  With [groupsWaiting == 0], [decideNextGroup]
    returns -1 and changes nothing.  Otherwise, when some group is in the
    waiting phase, it returns the smallest id among the waiting groups,
    after setting the entry of that group to ATTABLE and taking one off
    [groupsWaiting]; when no group is, it returns -1 and changes nothing.
    On a ledger that agrees with the counter the last case does not
    arise. *)
Theorem decideNextGroup_contract (w : world) :
  length (groupRecord w) = MAXGROUPS ->
  INT_MIN < groupsWaiting (fSt w) <= INT_MAX ->
  (groupsWaiting (fSt w) = 0 -> decideNextGroup w = Ret (-1) w) /\
  (groupsWaiting (fSt w) <> 0 ->
   (exists (g : Z) (w' : world),
      decideNextGroup w = Ret g w' /\
      firstWaiting (groupRecord w) g /\
      groupRecord w' = <[Z.to_nat g := ATTABLE]> (groupRecord w) /\
      groupsWaiting (fSt w') = groupsWaiting (fSt w) - 1 /\
      assignedTable (fSt w') = assignedTable (fSt w) /\
      trace w' = trace w)
   \/
   ((forall j : Z, load (groupRecord w) j <> Some WAIT) /\
    decideNextGroup w = Ret (-1) w)) /\
  (ledger_consistent w -> groupsWaiting (fSt w) <> 0 ->
   exists j : Z, load (groupRecord w) j = Some WAIT).
Proof.
  intros Hlen Hint. split; [|split].
  - intros Hz. unfold decideNextGroup, bind, gets. rewrite Hz. reflexivity.
  - intros Hnz. destruct (decideNextGroup_cases w Hlen) as [[Hrun [Hz|Hnone]]|Hseat].
    + contradiction.
    + right. split; assumption.
    + left. destruct Hseat as (g & _ & Hfirst & Hrun).
      exists g, (seat g w). split; [exact Hrun|]. split; [exact Hfirst|].
      destruct (seat_fields g w) as (Hr & Hgw & Ha & _ & _ & _ & Ht).
      split; [exact Hr|]. split; [|split; [exact Ha|exact Ht]].
      rewrite Hgw. apply wrap_id. unfold INT_MIN, INT_MAX in *. lia.
  - intros Hcons Hnz. apply countWaiting_some. rewrite <- Hcons. exact Hnz.
Qed.

(** C9. A "no candidate" answer of [decideNextGroup] is idempotent: when a
    call returns -1 it has changed nothing (neither [groupsWaiting] nor any
    ledger entry), and the next call returns -1 again. *)
Theorem decideNextGroup_no_candidate_idempotent (w w' : world) :
  decideNextGroup w = Ret (-1) w' ->
  w' = w /\ decideNextGroup w' = Ret (-1) w'.
Proof.
  intros Hrun.
  assert (Hw : w' = w).
  { unfold decideNextGroup, bind, gets in Hrun.
    destruct (groupsWaiting (fSt w) =? 0).
    - inversion Hrun. reflexivity.
    - pose proof (nextGroupScan_cases MAXGROUPS 0 w ltac:(lia)) as Hc.
      rewrite Hrun in Hc. destruct Hc as [(_ & Hw & _)|(Hx & _)]; [exact Hw|lia]. }
  subst w'. split; [reflexivity|exact Hrun].
Qed.

End NextGroup.

(** ** Semaphore operations and the two decisions *)

Section Steps.

Context {pc : ProbConst}.
Variable env : environment.

Lemma bind_orDie_semDown {B : Type} (s : semaphore) (msg : string)
    (k : unit -> M B) (w : world) :
  bind (orDie (semDown env s) msg) k w =
  if sem_ok env (semOps w) then k tt (downed env s w)
  else Exit EXIT_FAILURE (died s msg w).
Proof.
  unfold bind, orDie, semDown, bind. destruct (sem_ok env (semOps w)); reflexivity.
Qed.

Lemma bind_orDie_semUp {B : Type} (s : semaphore) (msg : string)
    (k : unit -> M B) (w : world) :
  bind (orDie (semUp env s) msg) k w =
  if sem_ok env (semOps w) then k tt (upped s w)
  else Exit EXIT_FAILURE (died s msg w).
Proof.
  unfold bind, orDie, semUp, bind. destruct (sem_ok env (semOps w)); reflexivity.
Qed.

Lemma orDie_semUp (s : semaphore) (msg : string) (w : world) :
  orDie (semUp env s) msg w =
  if sem_ok env (semOps w) then Ret tt (upped s w)
  else Exit EXIT_FAILURE (died s msg w).
Proof.
  unfold orDie, semUp, bind. destruct (sem_ok env (semOps w)); reflexivity.
Qed.

Lemma bind_enter {B : Type} (v : Z) (k : unit -> M B) (w : world) :
  bind (setStat v) (fun _ => bind saveState k) w = k tt (published v w).
Proof. reflexivity. Qed.

(** The scan of the tables reads and does not write. *)
Lemma tableScan_reads (k : nat) (i t nt : Z) (w : world) :
  match tableScan k i t nt w with
  | Ret _ w' => w' = w
  | Fault w' => w' = w
  | Exit _ _ => False
  | OutOfFuel => False
  end.
Proof.
  revert i t nt. induction k as [|k IH]; intros i t nt; [reflexivity|].
  cbn [tableScan]. unfold bind at 1, assignedTableAt.
  destruct (load (assignedTable (fSt w)) i) as [v|]; [|reflexivity].
  destruct (v =? 1); [destruct (nt =? 0); [apply IH|reflexivity]|].
  destruct (v =? 0); [destruct (nt =? 0); [apply IH|reflexivity]|apply IH].
Qed.

(** A table id that comes out of the scan is bound to no group. *)
Lemma tableScan_free (k : nat) (i t nt : Z) (w : world) (x : Z) (w' : world) :
  0 <= i ->
  t = 0 \/ t = 1 ->
  (forall j, 0 <= j < i -> load (assignedTable (fSt w)) j <> Some t) ->
  (nt = 0 -> forall j, 0 <= j < i ->
             load (assignedTable (fSt w)) j <> Some 0 /\
             load (assignedTable (fSt w)) j <> Some 1) ->
  tableScan k i t nt w = Ret x w' ->
  x = -1 \/
  ((x = 0 \/ x = 1) /\
   forall j, 0 <= j < i + Z.of_nat k -> load (assignedTable (fSt w)) j <> Some x).
Proof.
  revert i t nt. induction k as [|k IH]; intros i t nt Hi Ht Hfree Hnone Hrun.
  - simpl in Hrun. inversion Hrun; subst. right. split; [exact Ht|].
    intros j Hj. apply Hfree. lia.
  - cbn [tableScan] in Hrun. unfold bind at 1, assignedTableAt in Hrun.
    destruct (load (assignedTable (fSt w)) i) as [v|] eqn:Hl; [|discriminate].
    assert (Hstep : forall t' nt',
      (t' = 0 \/ t' = 1) ->
      (forall j, 0 <= j < i + 1 -> load (assignedTable (fSt w)) j <> Some t') ->
      (nt' = 0 -> forall j, 0 <= j < i + 1 ->
                 load (assignedTable (fSt w)) j <> Some 0 /\
                 load (assignedTable (fSt w)) j <> Some 1) ->
      tableScan k (i + 1) t' nt' w = Ret x w' ->
      x = -1 \/
      ((x = 0 \/ x = 1) /\
       forall j, 0 <= j < i + Z.of_nat (S k) ->
                 load (assignedTable (fSt w)) j <> Some x)).
    { intros t' nt' Ht' Hfree' Hnone' Hrun'.
      destruct (IH (i + 1) t' nt' ltac:(lia) Ht' Hfree' Hnone' Hrun') as [Hx|[Hx Hall]];
        [left; exact Hx|right]. split; [exact Hx|]. intros j Hj. apply Hall. lia. }
    destruct (Z.eqb_spec v 1) as [Hv1|Hv1].
    + destruct (Z.eqb_spec nt 0) as [Hnt|Hnt].
      * apply (Hstep 0 (nt + 1)); [left; reflexivity| |lia|exact Hrun].
        intros j Hj. destruct (Z.eq_dec j i) as [->|Hne]; [congruence|].
        apply (Hnone Hnt j). lia.
      * inversion Hrun. left. reflexivity.
    + destruct (Z.eqb_spec v 0) as [Hv0|Hv0].
      * destruct (Z.eqb_spec nt 0) as [Hnt|Hnt].
        -- apply (Hstep 1 (nt + 1)); [right; reflexivity| |lia|exact Hrun].
           intros j Hj. destruct (Z.eq_dec j i) as [->|Hne]; [congruence|].
           apply (Hnone Hnt j). lia.
        -- inversion Hrun. left. reflexivity.
      * apply (Hstep t nt); [exact Ht| | |exact Hrun].
        -- intros j Hj. destruct (Z.eq_dec j i) as [->|Hne].
           ++ rewrite Hl. intros Heq. inversion Heq. lia.
           ++ apply Hfree. lia.
        -- intros Hnt j Hj. destruct (Z.eq_dec j i) as [->|Hne].
           ++ rewrite Hl. split; intros Heq; inversion Heq; lia.
           ++ apply (Hnone Hnt j). lia.
Qed.

(** [decideTableOrWait] when it returns. *)
Lemma decideTableOrWait_Ret (n : Z) (w : world) (t : Z) (w' : world) :
  decideTableOrWait n w = Ret t w' ->
  tableScan MAXGROUPS 0 0 0 w = Ret t w /\
  0 <= n < Z.of_nat (length (groupRecord w)) /\
  ((t <> -1 /\
    w' = with_groupRecord (<[Z.to_nat n := ATTABLE]> (groupRecord w)) w)
   \/
   (t = -1 /\
    w' = with_fSt (fun f => set_groupsWaiting (wrap (groupsWaiting f + 1)) f)
           (with_groupRecord (<[Z.to_nat n := WAIT]> (groupRecord w)) w))).
Proof.
  unfold decideTableOrWait. unfold bind at 1.
  pose proof (tableScan_reads MAXGROUPS 0 0 0 w) as Hr.
  destruct (tableScan MAXGROUPS 0 0 0 w) as [x w1| | |]; try discriminate.
  subst w1. destruct (Z.eqb_spec x (-1)) as [Hx|Hx]; simpl.
  - unfold bind, setGroupRecord.
    destruct (store (groupRecord w) n WAIT) as [r'|] eqn:Hs; [|discriminate].
    apply store_Some_inv in Hs as [Hn ->]. unfold modify, ret. intros Hrun.
    inversion Hrun; subst. split; [reflexivity|]. split; [exact Hn|].
    right. split; reflexivity.
  - unfold bind, setGroupRecord.
    destruct (store (groupRecord w) n ATTABLE) as [r'|] eqn:Hs; [|discriminate].
    apply store_Some_inv in Hs as [Hn ->]. unfold ret. intros Hrun.
    inversion Hrun; subst. split; [reflexivity|]. split; [exact Hn|].
    left. split; [exact Hx|reflexivity].
Qed.

(** [decideNextGroup] when it returns. *)
Lemma decideNextGroup_Ret (w : world) (g : Z) (w' : world) :
  decideNextGroup w = Ret g w' ->
  (g = -1 /\ w' = w) \/
  (groupsWaiting (fSt w) <> 0 /\ firstWaiting (groupRecord w) g /\
   w' = seat g w).
Proof.
  unfold decideNextGroup, bind, gets.
  destruct (Z.eqb_spec (groupsWaiting (fSt w)) 0) as [Hz|Hnz].
  - intros Hrun. inversion Hrun. left. split; reflexivity.
  - intros Hrun.
    pose proof (nextGroupScan_cases MAXGROUPS 0 w ltac:(lia)) as Hc.
    rewrite Hrun in Hc. destruct Hc as [(Hx & Hw & _)|(Hx & Hlx & Hall & Hw)].
    + left. split; assumption.
    + right. split; [exact Hnz|]. split; [|exact Hw].
      split; [exact Hlx|]. intros j Hj. apply Hall. lia.
Qed.

End Steps.

(** ** The two handlers when they return *)

Section Handlers.

Context {pc : ProbConst}.
Variable env : environment.

Lemma provideTableOrWaitingRoom_Ret (n : Z) (w w' : world) :
  provideTableOrWaitingRoom env n w = Ret tt w' ->
  exists (t : Z) (w2 : world),
    decideTableOrWait n (entered env ASSIGNTABLE w) = Ret t w2 /\
    ((t = -1 /\ w' = upped mutex w2)
     \/
     (t <> -1 /\
      0 <= n < Z.of_nat (length (assignedTable (fSt w2))) /\
      0 <= n < Z.of_nat MAXGROUPS /\
      w' = upped mutex (granted n t w2))).
Proof.
  unfold provideTableOrWaitingRoom. rewrite bind_orDie_semDown.
  destruct (sem_ok env (semOps w)); [|discriminate].
  rewrite bind_enter. fold (entered env ASSIGNTABLE w). unfold bind at 1.
  destruct (decideTableOrWait n (entered env ASSIGNTABLE w)) as [t w2| | |];
    try discriminate.
  intros Hrun. exists t, w2. split; [reflexivity|].
  destruct (Z.eqb_spec t (-1)) as [Ht|Ht]; simpl in Hrun.
  - left. split; [exact Ht|]. unfold bind at 1, ret in Hrun.
    rewrite orDie_semUp in Hrun.
    destruct (sem_ok env (semOps w2)); inversion Hrun. reflexivity.
  - right. split; [exact Ht|]. unfold bind at 1 2, setAssignedTable in Hrun.
    destruct (store (assignedTable (fSt w2)) n t) as [a'|] eqn:Hs; [|discriminate].
    apply store_Some_inv in Hs as [Hn ->]. split; [exact Hn|].
    unfold bind at 1, waitForTableAt in Hrun.
    destruct (Z.leb_spec 0 n), (Z.ltb_spec n (Z.of_nat MAXGROUPS));
      simpl in Hrun; try discriminate.
    split; [lia|]. unfold ret in Hrun. rewrite orDie_semUp in Hrun.
    match type of Hrun with
    | context [sem_ok env ?k] => destruct (sem_ok env k); [|discriminate]
    end.
    rewrite orDie_semUp in Hrun.
    match type of Hrun with
    | context [sem_ok env ?k] => destruct (sem_ok env k); [|discriminate]
    end.
    inversion Hrun. reflexivity.
Qed.

Lemma receivePayment_Ret (n : Z) (w w' : world) :
  receivePayment env n w = Ret tt w' ->
  exists (t g : Z) (w2 : world),
    load (assignedTable (fSt w)) n = Some t /\
    decideNextGroup (entered env RECVPAY w) = Ret g w2 /\
    0 <= t < Z.of_nat NUMTABLES /\
    ((g = -1 /\ w' = vacated n t w2)
     \/
     (g <> -1 /\
      0 <= g < Z.of_nat (length (assignedTable (fSt w2))) /\
      0 <= n < Z.of_nat (length (groupRecord w2)) /\
      0 <= g < Z.of_nat MAXGROUPS /\
      w' = vacated n t (handedOver n g t w2))).
Proof.
  unfold receivePayment. rewrite bind_orDie_semDown.
  destruct (sem_ok env (semOps w)); [|discriminate].
  rewrite bind_enter. fold (entered env RECVPAY w).
  unfold bind at 1, assignedTableAt.
  change (assignedTable (fSt (entered env RECVPAY w)))
    with (assignedTable (fSt w)).
  destruct (load (assignedTable (fSt w)) n) as [t|] eqn:Hl; [|discriminate].
  unfold bind at 1.
  destruct (decideNextGroup (entered env RECVPAY w)) as [g w2| | |];
    try discriminate.
  intros Hrun. exists t, g, w2. split; [reflexivity|]. split; [reflexivity|].
  assert (Hend : forall w3 : world,
    (exec setAssignedTable n (-1);
     exec orDie (semUp env mutex)
            "error on the down operation for semaphore access (WT)";
     call s <- tableDoneAt t;
     orDie (semUp env s)
       "error on the up operation for semaphore access (PT)")%rest w3 = Ret tt w' ->
    0 <= t < Z.of_nat NUMTABLES /\ w' = vacated n t w3).
  { intros w3 Hend. unfold bind at 1, setAssignedTable in Hend.
    destruct (store (assignedTable (fSt w3)) n (-1)) as [a'|] eqn:Hs; [|discriminate].
    apply store_Some_inv in Hs as [Hn ->]. rewrite bind_orDie_semUp in Hend.
    match type of Hend with
    | context [sem_ok env ?k] => destruct (sem_ok env k); [|discriminate]
    end.
    unfold bind at 1, tableDoneAt in Hend.
    destruct (Z.leb_spec 0 t), (Z.ltb_spec t (Z.of_nat NUMTABLES));
      simpl in Hend; try discriminate.
    split; [lia|]. unfold ret in Hend. rewrite orDie_semUp in Hend.
    match type of Hend with
    | context [sem_ok env ?k] => destruct (sem_ok env k); [|discriminate]
    end.
    inversion Hend. reflexivity. }
  unfold bind at 1 in Hrun.
  destruct (Z.eqb_spec g (-1)) as [Hg|Hg]; simpl in Hrun.
  - unfold ret in Hrun. destruct (Hend w2 Hrun) as [Ht Hw].
    split; [exact Ht|]. left. split; assumption.
  - unfold bind at 1, setAssignedTable in Hrun.
    destruct (store (assignedTable (fSt w2)) g t) as [a'|] eqn:Hs; [|discriminate].
    apply store_Some_inv in Hs as [Hgr ->].
    unfold bind at 1, setGroupRecord in Hrun.
    match type of Hrun with
    | context [store ?r n DONE] => destruct (store r n DONE) as [r'|] eqn:Hs
    end; [|discriminate].
    apply store_Some_inv in Hs as [Hnr ->].
    unfold bind at 1, waitForTableAt in Hrun.
    destruct (Z.leb_spec 0 g), (Z.ltb_spec g (Z.of_nat MAXGROUPS));
      simpl in Hrun; try discriminate.
    unfold ret in Hrun. rewrite orDie_semUp in Hrun.
    match type of Hrun with
    | context [sem_ok env ?k] => destruct (sem_ok env k); [|discriminate]
    end.
    match type of Hrun with
    | ?m ?w3 = _ => destruct (Hend w3 Hrun) as [Ht Hw]
    end.
    split; [exact Ht|]. right. split; [exact Hg|]. split; [exact Hgr|].
    split; [exact Hnr|]. split; [lia|]. exact Hw.
Qed.

End Handlers.

(** ** The paying group in the ledger *)

Section Payment.

Context {pc : ProbConst}.
Variable env : environment.

(** C1. What [receivePayment] does to the ledger: when a waiting group
    takes the table over, the entry of the paying group is DONE; when no
    group is selected, the ledger is left as it was, so that a group that
    was ATTABLE is still ATTABLE after it has paid. *)
Theorem receivePayment_ledger (n : Z) (w w' : world) (g : Z) (w2 : world) :
  receivePayment env n w = Ret tt w' ->
  decideNextGroup (entered env RECVPAY w) = Ret g w2 ->
  (g <> -1 -> load (groupRecord w') n = Some DONE) /\
  (g = -1 -> groupRecord w' = groupRecord w).
Proof.
  intros Hrun Hdec.
  destruct (receivePayment_Ret env n w w' Hrun) as (t & g' & w2' & Hl & Hdec' & Ht & Hcase).
  rewrite Hdec in Hdec'. inversion Hdec'; subst g' w2'. clear Hdec'.
  destruct Hcase as [(Hg & Hw)|(Hg & Hgr & Hnr & Hgm & Hw)]; subst w'.
  - split; [contradiction|]. intros _.
    destruct (decideNextGroup_Ret _ _ _ Hdec) as [(_ & Hw2)|(_ & [Hf _] & _)].
    + subst w2. reflexivity.
    + apply load_Some_range in Hf. lia.
  - split; [|contradiction]. intros _.
    change (groupRecord (vacated n t (handedOver n g t w2)))
      with (<[Z.to_nat n := DONE]> (groupRecord w2)).
    apply load_insert_eq. exact Hnr.
Qed.

End Payment.

Lemma receivePayment_ledger_witness :
  exists w' : world,
    receivePayment (Demo.calm []) 0 Demo.single = Ret tt w' /\
    load (groupRecord Demo.single) 0 = Some ATTABLE /\
    load (groupRecord w') 0 = Some ATTABLE /\
    groupRecord w' = groupRecord Demo.single.
Proof.
  eexists. split; [vm_compute; reflexivity|].
  split; [reflexivity|]. split; [reflexivity|].
  eapply (receivePayment_ledger (Demo.calm []) 0 Demo.single _ (-1)).
  - vm_compute. reflexivity.
  - vm_compute. reflexivity.
  - reflexivity.
Defined.

(** ** The waiting counter and the ledger *)

Section Counter.

Context {pc : ProbConst}.
Variable env : environment.

Lemma countWaiting_insert_range (r : list Z) (n v : Z) :
  0 <= n < Z.of_nat (length r) ->
  exists old : Z,
    load r n = Some old /\
    countWaiting (<[Z.to_nat n := v]> r) =
    countWaiting r - (if old =? WAIT then 1 else 0) + (if v =? WAIT then 1 else 0).
Proof.
  intros Hn. destruct (load_in_range r n Hn) as [old Hold]. exists old.
  split; [exact Hold|]. apply countWaiting_insert. unfold load in Hold.
  destruct (Z.leb_spec 0 n); [exact Hold|lia].
Qed.

Lemma provideTableOrWaitingRoom_consistent (n : Z) (w w' : world) :
  Z.of_nat (length (groupRecord w)) <= INT_MAX ->
  ledger_consistent w ->
  provideTableOrWaitingRoom env n w = Ret tt w' ->
  load (groupRecord w) n <> Some WAIT ->
  ledger_consistent w'.
Proof.
  intros Hmax Hcons Hrun Hn.
  destruct (provideTableOrWaitingRoom_Ret env n w w' Hrun) as (t & w2 & Hdec & Hcase).
  destruct (decideTableOrWait_Ret n _ t w2 Hdec) as (_ & Hr & Hw2).
  change (groupRecord (entered env ASSIGNTABLE w)) with (groupRecord w) in *.
  destruct (countWaiting_insert_range (groupRecord w) n ATTABLE Hr) as (old & Hold & Hat).
  destruct (countWaiting_insert_range (groupRecord w) n WAIT Hr) as (old' & Hold' & Hwt).
  rewrite Hold in Hold'. inversion Hold'; subst old'. clear Hold'.
  assert (Hnw : (old =? WAIT) = false).
  { apply Z.eqb_neq. intros ->. apply Hn. exact Hold. }
  rewrite Hnw in Hat, Hwt. unfold ledger_consistent in *.
  pose proof (countWaiting_bounds (groupRecord w)) as Hb.
  pose proof (countWaiting_bounds (<[Z.to_nat n := WAIT]> (groupRecord w))) as Hb'.
  rewrite length_insert in Hb'.
  destruct Hw2 as [(Ht & ->)|(Ht & ->)];
    destruct Hcase as [(Ht' & ->)|(Ht' & _ & _ & ->)]; try contradiction.
  - cbn. rewrite Hat. simpl. cbn in Hcons. lia.
  - cbn. rewrite Hwt. simpl. simpl in Hwt.
    rewrite wrap_id; unfold INT_MIN, INT_MAX in *; lia.
Qed.

Lemma receivePayment_consistent (n : Z) (w w' : world) :
  Z.of_nat (length (groupRecord w)) <= INT_MAX ->
  ledger_consistent w ->
  receivePayment env n w = Ret tt w' ->
  (load (groupRecord w) n = Some WAIT -> firstWaiting (groupRecord w) n) ->
  ledger_consistent w'.
Proof.
  intros Hmax Hcons Hrun Hn.
  destruct (receivePayment_Ret env n w w' Hrun) as (t & g & w2 & Hl & Hdec & Ht & Hcase).
  apply decideNextGroup_Ret in Hdec.
  change (groupRecord (entered env RECVPAY w)) with (groupRecord w) in Hdec.
  change (groupsWaiting (fSt (entered env RECVPAY w)))
    with (groupsWaiting (fSt w)) in Hdec.
  unfold ledger_consistent in *.
  destruct Hdec as [(Hg & ->)|(Hnz & Hfirst & ->)];
    destruct Hcase as [(Hg' & ->)|(Hg' & Hgr & Hnr & Hgm & ->)].
  - exact Hcons.
  - contradiction.
  - destruct Hfirst as [Hf _]. apply load_Some_range in Hf. lia.
  - change (groupRecord (seat g (entered env RECVPAY w)))
      with (<[Z.to_nat g := ATTABLE]> (groupRecord w)) in Hnr.
    pose proof Hfirst as [Hf _]. pose proof (load_Some_range _ _ _ Hf) as Hgrange.
    destruct (countWaiting_insert_range (groupRecord w) g ATTABLE Hgrange)
      as (old & Hold & Hc1).
    rewrite Hf in Hold. inversion Hold; subst old. clear Hold.
    destruct (countWaiting_insert_range _ n DONE Hnr) as (old2 & Hold2 & Hc2).
    rewrite load_insert in Hold2 by exact Hgrange.
    assert (Hnw : (old2 =? WAIT) = false).
    { apply Z.eqb_neq. intros ->. destruct (Z.eqb_spec n g) as [Hng|Hng].
      - inversion Hold2.
      - apply Hng. apply (firstWaiting_unique (groupRecord w)); [|exact Hfirst].
        apply Hn. exact Hold2. }
    rewrite Hnw in Hc2. simpl in Hc1, Hc2.
    pose proof (countWaiting_bounds (<[Z.to_nat g := ATTABLE]> (groupRecord w))) as Hb.
    rewrite length_insert in Hb.
    cbn. rewrite Hc2, Hc1.
    rewrite wrap_id; unfold INT_MIN, INT_MAX in *; lia.
Qed.

(** C4, as the code has it.  An operation of the receptionist keeps
    [groupsWaiting] equal to the number of ledger entries in the waiting
    phase, from its entry to its return, when the group it serves is not
    already waiting: for a table request, the entry of [n] is not WAIT; for
    a payment, the entry of [n] is not WAIT, unless [n] is the very group
    that [decideNextGroup] selects. *)
Theorem groupsWaiting_counts_the_waiting (n : Z) (w w' : world) :
  Z.of_nat (length (groupRecord w)) <= INT_MAX ->
  ledger_consistent w ->
  (provideTableOrWaitingRoom env n w = Ret tt w' ->
   load (groupRecord w) n <> Some WAIT ->
   ledger_consistent w') /\
  (receivePayment env n w = Ret tt w' ->
   (load (groupRecord w) n = Some WAIT -> firstWaiting (groupRecord w) n) ->
   ledger_consistent w').
Proof.
  intros Hmax Hcons. split.
  - apply provideTableOrWaitingRoom_consistent; assumption.
  - apply receivePayment_consistent; assumption.
Qed.

End Counter.

(** ** waitForGroup when it returns *)

Section Received.

Context {pc : ProbConst}.
Variable env : environment.

Lemma semOps_downed (s : semaphore) (w : world) :
  semOps (downed env s w) = S (semOps w).
Proof. destruct s; reflexivity. Qed.

Lemma semOps_upped (s : semaphore) (w : world) :
  semOps (upped s w) = S (semOps w).
Proof. reflexivity. Qed.

Lemma semOps_published (v : Z) (w : world) :
  semOps (published v w) = semOps w.
Proof. reflexivity. Qed.

Lemma semOps_log (e : event) (w : world) : semOps (log e w) = semOps w.
Proof. reflexivity. Qed.

Lemma bind_gets {A B : Type} (f : world -> A) (k : A -> M B) (w : world) :
  bind (gets f) k w = k (f w) w.
Proof. reflexivity. Qed.

Lemma bind_modify {B : Type} (f : world -> world) (k : unit -> M B) (w : world) :
  bind (modify f) k w = k tt (f w).
Proof. reflexivity. Qed.

(** [waitForGroup], one semaphore operation after the other: [ok i] is
    the outcome of the [i]-th one. *)
Lemma waitForGroup_run (w : world) :
  exists r1 r2 r3 r4 r5 r6 : result request,
    waitForGroup env w =
    if sem_ok env (semOps w) then
      if sem_ok env (S (semOps w)) then
        if sem_ok env (S (S (semOps w))) then
          if sem_ok env (S (S (S (semOps w)))) then
            if sem_ok env (S (S (S (S (semOps w))))) then
              if sem_ok env (S (S (S (S (S (semOps w)))))) then
                Ret (incoming env (delivered w)) (received env w)
              else r6
            else r5
          else r4
        else r3
      else r2
    else r1.
Proof.
  do 6 eexists. unfold waitForGroup.
  rewrite bind_orDie_semDown.
  destruct (sem_ok env (semOps w)); [|reflexivity].
  rewrite bind_enter.
  rewrite bind_orDie_semUp, semOps_published, semOps_downed.
  destruct (sem_ok env (S (semOps w))); [|reflexivity].
  rewrite bind_orDie_semDown, semOps_upped, semOps_published, semOps_downed.
  destruct (sem_ok env (S (S (semOps w)))); [|reflexivity].
  rewrite bind_orDie_semDown, semOps_downed, semOps_upped, semOps_published,
    semOps_downed.
  destruct (sem_ok env (S (S (S (semOps w))))); [|reflexivity].
  rewrite bind_gets, bind_modify.
  rewrite bind_orDie_semUp, semOps_log, !semOps_downed, semOps_upped,
    semOps_published, semOps_downed.
  destruct (sem_ok env (S (S (S (S (semOps w)))))); [|reflexivity].
  rewrite bind_orDie_semUp, semOps_upped, semOps_log, !semOps_downed,
    semOps_upped, semOps_published, semOps_downed.
  destruct (sem_ok env (S (S (S (S (S (semOps w))))))); reflexivity.
Qed.

Lemma waitForGroup_ok (w : world) :
  sems_ok_between env (semOps w) (semOps w + 6) ->
  waitForGroup env w = Ret (incoming env (delivered w)) (received env w).
Proof.
  intros Hok.
  destruct (waitForGroup_run w) as (r1 & r2 & r3 & r4 & r5 & r6 & ->).
  rewrite !Hok by lia. reflexivity.
Qed.

Lemma waitForGroup_Ret (w w' : world) (req : request) :
  waitForGroup env w = Ret req w' ->
  w' = received env w /\ req = incoming env (delivered w) /\
  sems_ok_between env (semOps w) (semOps w + 6).
Proof.
  intros Hrun.
  assert (Hok : sems_ok_between env (semOps w) (semOps w + 6)).
  { intros k Hk. destruct (sem_ok env k) eqn:Hf; [reflexivity|]. exfalso.
    assert (Hcases : k = semOps w \/ k = S (semOps w) \/ k = S (S (semOps w)) \/
                     k = S (S (S (semOps w))) \/ k = S (S (S (S (semOps w)))) \/
                     k = S (S (S (S (S (semOps w)))))) by lia.
    clear Hk.
    unfold waitForGroup in Hrun. rewrite bind_orDie_semDown in Hrun.
    destruct (sem_ok env (semOps w)) eqn:H0; [|discriminate].
    rewrite bind_enter in Hrun.
    rewrite bind_orDie_semUp, semOps_published, semOps_downed in Hrun.
    destruct (sem_ok env (S (semOps w))) eqn:H1; [|discriminate].
    rewrite bind_orDie_semDown, semOps_upped, semOps_published,
      semOps_downed in Hrun.
    destruct (sem_ok env (S (S (semOps w)))) eqn:H2; [|discriminate].
    rewrite bind_orDie_semDown, semOps_downed, semOps_upped, semOps_published,
      semOps_downed in Hrun.
    destruct (sem_ok env (S (S (S (semOps w))))) eqn:H3; [|discriminate].
    rewrite bind_gets, bind_modify in Hrun.
    rewrite bind_orDie_semUp, semOps_log, !semOps_downed, semOps_upped,
      semOps_published, semOps_downed in Hrun.
    destruct (sem_ok env (S (S (S (S (semOps w)))))) eqn:H4; [|discriminate].
    rewrite bind_orDie_semUp, semOps_upped, semOps_log, !semOps_downed,
      semOps_upped, semOps_published, semOps_downed in Hrun.
    destruct (sem_ok env (S (S (S (S (S (semOps w))))))) eqn:H5; [|discriminate].
    destruct Hcases as [->|[->|[->|[->|[->| ->]]]]]; congruence. }
  rewrite (waitForGroup_ok w Hok) in Hrun.
  injection Hrun as <- <-. split; [reflexivity|]. split; [reflexivity|exact Hok].
Qed.

End Received.

(** ** No table is booked twice *)

Section Booking.

Context {pc : ProbConst}.
Variable env : environment.

Lemma no_double_booking_bind (a : list Z) (n t : Z) :
  0 <= n < Z.of_nat (length a) ->
  no_double_booking a ->
  (forall j, load a j <> Some t) ->
  no_double_booking (<[Z.to_nat n := t]> a).
Proof.
  intros Hn Hndb Hfree i j v Hi Hj Hv.
  rewrite load_insert in Hi, Hj by exact Hn.
  destruct (Z.eqb_spec i n) as [->|Hin], (Z.eqb_spec j n) as [->|Hjn].
  - reflexivity.
  - inversion Hi; subst v. exfalso. apply (Hfree j). exact Hj.
  - inversion Hj; subst v. exfalso. apply (Hfree i). exact Hi.
  - apply (Hndb i j v); assumption.
Qed.

Lemma no_double_booking_clear (a : list Z) (n : Z) :
  0 <= n < Z.of_nat (length a) ->
  no_double_booking a ->
  no_double_booking (<[Z.to_nat n := -1]> a).
Proof.
  intros Hn Hndb i j v Hi Hj Hv.
  rewrite load_insert in Hi, Hj by exact Hn.
  destruct (Z.eqb_spec i n) as [->|Hin]; [inversion Hi; lia|].
  destruct (Z.eqb_spec j n) as [->|Hjn]; [inversion Hj; lia|].
  apply (Hndb i j v); assumption.
Qed.

(** The table of [n] goes to [g], and [n] is left without table. *)
Lemma no_double_booking_move (a : list Z) (n g t : Z) :
  0 <= g < Z.of_nat (length a) ->
  load a n = Some t ->
  no_double_booking a ->
  no_double_booking (<[Z.to_nat n := -1]> (<[Z.to_nat g := t]> a)).
Proof.
  intros Hg Hl Hndb i j v Hi Hj Hv.
  pose proof (load_Some_range _ _ _ Hl) as Hn.
  rewrite load_insert in Hi, Hj by (rewrite length_insert; exact Hn).
  rewrite load_insert in Hi, Hj by exact Hg.
  destruct (Z.eqb_spec i n) as [->|Hin]; [inversion Hi; lia|].
  destruct (Z.eqb_spec j n) as [->|Hjn]; [inversion Hj; lia|].
  destruct (Z.eqb_spec i g) as [->|Hig], (Z.eqb_spec j g) as [->|Hjg].
  - reflexivity.
  - inversion Hi; subst v. exfalso. apply Hjn. apply (Hndb j n t); assumption.
  - inversion Hj; subst v. exfalso. apply Hin. apply (Hndb i n t); assumption.
  - apply (Hndb i j v); assumption.
Qed.

Lemma booked_once_step (w w' : world) :
  booked_once w ->
  (exists req, waitForGroup env w = Ret req w') \/
  (exists n, provideTableOrWaitingRoom env n w = Ret tt w') \/
  (exists n, receivePayment env n w = Ret tt w') ->
  booked_once w'.
Proof.
  intros [Hlen Hndb] [[req Hrun]|[[n Hrun]|[n Hrun]]].
  - apply waitForGroup_Ret in Hrun as (-> & _ & _). split; assumption.
  - destruct (provideTableOrWaitingRoom_Ret env n w w' Hrun) as (t & w2 & Hdec & Hcase).
    destruct (decideTableOrWait_Ret n _ t w2 Hdec) as (Hscan & _ & Hw2).
    assert (Ha2 : assignedTable (fSt w2) = assignedTable (fSt w)).
    { destruct Hw2 as [(_ & ->)|(_ & ->)]; reflexivity. }
    destruct Hcase as [(Ht & ->)|(Ht & Hn & _ & ->)].
    + unfold booked_once. change (assignedTable (fSt (upped mutex w2)))
        with (assignedTable (fSt w2)). rewrite Ha2. split; assumption.
    + unfold booked_once.
      change (assignedTable (fSt (upped mutex (granted n t w2))))
        with (<[Z.to_nat n := t]> (assignedTable (fSt w2))).
      rewrite Ha2 in *. rewrite length_insert. split; [exact Hlen|].
      apply no_double_booking_bind; [exact Hn|exact Hndb|].
      destruct (tableScan_free MAXGROUPS 0 0 0 _ t _ ltac:(lia)
                  ltac:(left; reflexivity) ltac:(intros; lia)
                  ltac:(intros; lia) Hscan) as [Hx|[_ Hfree]]; [contradiction|].
      intros j Hj.
      change (assignedTable (fSt (entered env ASSIGNTABLE w)))
        with (assignedTable (fSt w)) in Hfree.
      apply (Hfree j); [|exact Hj].
      pose proof (load_length _ _ _ _ Hlen Hj). lia.
  - destruct (receivePayment_Ret env n w w' Hrun) as (t & g & w2 & Hl & Hdec & Ht & Hcase).
    apply decideNextGroup_Ret in Hdec.
    assert (Ha2 : assignedTable (fSt w2) = assignedTable (fSt w)).
    { destruct Hdec as [(_ & ->)|(_ & _ & ->)]; reflexivity. }
    pose proof (load_Some_range _ _ _ Hl) as Hn.
    destruct Hcase as [(Hg & ->)|(Hg & Hgr & _ & _ & ->)]; unfold booked_once.
    + change (assignedTable (fSt (vacated n t w2)))
        with (<[Z.to_nat n := -1]> (assignedTable (fSt w2))).
      rewrite Ha2, length_insert. split; [exact Hlen|].
      apply no_double_booking_clear; assumption.
    + change (assignedTable (fSt (vacated n t (handedOver n g t w2))))
        with (<[Z.to_nat n := -1]> (<[Z.to_nat g := t]> (assignedTable (fSt w2)))).
      rewrite Ha2 in *. rewrite !length_insert. split; [exact Hlen|].
      apply no_double_booking_move; assumption.
Qed.


End Booking.

Lemma no_double_booking_unassigned (a : list Z) :
  Forall (fun v => v = -1) a -> no_double_booking a.
Proof.
  intros Hall i j t Hi _ Ht. exfalso. apply Ht.
  unfold load in Hi. destruct (0 <=? i); [|discriminate].
  rewrite Forall_lookup in Hall. exact (Hall _ _ Hi).
Qed.

(** ** waitForGroup *)

Section Waiting.

Context {pc : ProbConst}.
Variable env : environment.

(** C6. The steps of [waitForGroup], in this order: under the lock the
    status WAIT_FOR_REQUEST is written and logged; the lock is released;
    the receptionist waits on [receptionistReq]; it takes the lock again,
    reads the pending request, once, and releases the lock; only then it
    raises [receptionistRequestPossible].  The request returned is the one
    read. *)
Theorem waitForGroup_order (w : world) :
  sems_ok_between env (semOps w) (semOps w + 6) ->
  exists w' : world,
    waitForGroup env w = Ret (incoming env (delivered w)) w' /\
    trace w' =
      trace w ++
      [EvDown mutex;
       EvStat WAIT_FOR_REQUEST;
       EvSaveState (set_receptionistStat WAIT_FOR_REQUEST (fSt w));
       EvUp mutex;
       EvDown receptionistReq;
       EvDown mutex;
       EvRead (incoming env (delivered w));
       EvUp mutex;
       EvUp receptionistRequestPossible] /\
    receptionistStat (fSt w') = WAIT_FOR_REQUEST /\
    delivered w' = S (delivered w).
Proof.
  intros Hok. exists (received env w). split; [apply waitForGroup_ok; exact Hok|].
  split; [|split; reflexivity].
  cbn. repeat rewrite <- app_assoc. reflexivity.
Qed.

End Waiting.

(** ** The wait branch of provideTableOrWaitingRoom *)

Section WaitBranch.

Context {pc : ProbConst}.
Variable env : environment.

(** C7. In [provideTableOrWaitingRoom (n)], when [decideTableOrWait]
    answers "no table", no group is signalled and no entry of
    [assignedTable] changes: from the state in which the decision is taken
    to the return, what changes is the ledger entry of [n], now WAIT, and
    [groupsWaiting], one more. *)
Theorem provideTableOrWaitingRoom_wait_branch (n : Z) (w w' w2 : world) :
  provideTableOrWaitingRoom env n w = Ret tt w' ->
  decideTableOrWait n (entered env ASSIGNTABLE w) = Ret (-1) w2 ->
  assignedTable (fSt w') = assignedTable (fSt w) /\
  trace w' =
    trace w ++
    [EvDown mutex; EvStat ASSIGNTABLE;
     EvSaveState (set_receptionistStat ASSIGNTABLE (fSt w)); EvUp mutex] /\
  (forall g : Z, EvUp (waitForTable g) ∉ drop (length (trace w)) (trace w')) /\
  fSt w' =
    set_groupsWaiting (wrap (groupsWaiting (fSt w) + 1))
      (fSt (entered env ASSIGNTABLE w)) /\
  groupRecord w' = <[Z.to_nat n := WAIT]> (groupRecord w) /\
  (forall j : Z, j <> n -> load (groupRecord w') j = load (groupRecord w) j).
Proof.
  intros Hrun Hdec.
  destruct (provideTableOrWaitingRoom_Ret env n w w' Hrun) as (t & w2' & Hdec' & Hcase).
  rewrite Hdec in Hdec'. inversion Hdec'; subst t w2'. clear Hdec'.
  destruct (decideTableOrWait_Ret n _ _ _ Hdec) as (_ & Hn & Hw2).
  destruct Hcase as [(_ & ->)|(Ht & _)]; [|contradiction].
  destruct Hw2 as [(Ht & _)|(_ & ->)]; [contradiction|].
  assert (Htrace : trace (upped mutex
            (with_fSt (fun f => set_groupsWaiting (wrap (groupsWaiting f + 1)) f)
               (with_groupRecord
                  (<[Z.to_nat n := WAIT]> (groupRecord (entered env ASSIGNTABLE w)))
                  (entered env ASSIGNTABLE w)))) =
          trace w ++
          [EvDown mutex; EvStat ASSIGNTABLE;
           EvSaveState (set_receptionistStat ASSIGNTABLE (fSt w)); EvUp mutex]).
  { cbn. repeat rewrite <- app_assoc. reflexivity. }
  split; [reflexivity|]. split; [exact Htrace|]. split.
  - intros g. rewrite Htrace, drop_app_length.
    intros Hin. repeat (apply elem_of_cons in Hin as [Hin|Hin]; [discriminate|]).
    apply elem_of_nil in Hin. exact Hin.
  - split; [reflexivity|]. split; [reflexivity|].
    intros j Hj.
    change (groupRecord (entered env ASSIGNTABLE w)) with (groupRecord w) in *.
    cbn [groupRecord upped log tick with_fSt with_groupRecord].
    apply load_insert_ne; lia.
Qed.

End WaitBranch.

(** ** The index of the table semaphore in receivePayment *)

Section TableDone.

Context {pc : ProbConst}.
Variable env : environment.

Lemma leaveTable_run (n t : Z) (w : world) :
  0 <= n < Z.of_nat (length (assignedTable (fSt w))) ->
  leaveTable env n t w =
  let w1 := with_fSt (set_assignedTable
                        (<[Z.to_nat n := -1]> (assignedTable (fSt w)))) w in
  if sem_ok env (semOps w) then
    if (0 <=? t) && (t <? Z.of_nat NUMTABLES) then
      if sem_ok env (S (semOps w)) then Ret tt (vacated n t w)
      else Exit EXIT_FAILURE
             (died (tableDone t)
                "error on the up operation for semaphore access (PT)"
                (upped mutex w1))
    else Fault (upped mutex w1)
  else Exit EXIT_FAILURE
         (died mutex "error on the down operation for semaphore access (WT)" w1).
Proof.
  intros Hn. unfold leaveTable. unfold bind at 1, setAssignedTable.
  rewrite (store_in_range _ _ _ Hn). rewrite bind_orDie_semUp. cbn zeta.
  change (semOps (with_fSt (set_assignedTable
            (<[Z.to_nat n := -1]> (assignedTable (fSt w)))) w)) with (semOps w).
  destruct (sem_ok env (semOps w)); [|reflexivity].
  unfold bind at 1, tableDoneAt.
  destruct ((0 <=? t) && (t <? Z.of_nat NUMTABLES)); [|reflexivity].
  unfold ret. rewrite orDie_semUp. reflexivity.
Qed.

(** [receivePayment] up to its last statements. *)
Lemma receivePayment_run (n t : Z) (w : world) :
  length (groupRecord w) = MAXGROUPS ->
  length (assignedTable (fSt w)) = MAXGROUPS ->
  load (assignedTable (fSt w)) n = Some t ->
  sem_ok env (semOps w) = true ->
  receivePayment env n w = leaveTable env n t (entered env RECVPAY w)
  \/
  exists g : Z,
    0 <= g < Z.of_nat MAXGROUPS /\
    receivePayment env n w =
    if sem_ok env (S (semOps w))
    then leaveTable env n t (handedOver n g t (seat g (entered env RECVPAY w)))
    else Exit EXIT_FAILURE
           (died (waitForTable g)
              "error on the up operation for semaphore access (PT)"
              (with_groupRecord
                 (<[Z.to_nat n := DONE]> (groupRecord (seat g (entered env RECVPAY w))))
                 (with_fSt
                    (set_assignedTable
                       (<[Z.to_nat g := t]>
                          (assignedTable (fSt (seat g (entered env RECVPAY w))))))
                    (seat g (entered env RECVPAY w))))).
Proof.
  intros Hlr Hla Hl Hok.
  pose proof (load_Some_range _ _ _ Hl) as Hn.
  assert (Hpre : receivePayment env n w =
    (call groupId <- decideNextGroup;
     exec (if negb (groupId =? -1) then
             exec setAssignedTable groupId t;
             exec setGroupRecord n DONE;
             call s <- waitForTableAt groupId;
             orDie (semUp env s)
               "error on the up operation for semaphore access (PT)"
           else ret tt);
     leaveTable env n t)%rest (entered env RECVPAY w)).
  { unfold receivePayment. rewrite bind_orDie_semDown, Hok, bind_enter.
    fold (entered env RECVPAY w). unfold bind at 1, assignedTableAt.
    change (assignedTable (fSt (entered env RECVPAY w)))
      with (assignedTable (fSt w)).
    rewrite Hl. reflexivity. }
  unfold bind at 1 in Hpre.
  destruct (decideNextGroup_cases (entered env RECVPAY w) Hlr)
    as [[Hd _]|(g & _ & Hfirst & Hd)]; rewrite Hd in Hpre; [left; exact Hpre|].
  right. exists g. destruct Hfirst as [Hf _].
  apply load_Some_range in Hf.
  change (groupRecord (entered env RECVPAY w)) with (groupRecord w) in Hf.
  split; [lia|]. rewrite Hpre. clear Hpre.
  destruct (Z.eqb_spec g (-1)) as [Hg|Hg]; [lia|]. simpl negb. cbv iota.
  unfold bind at 1. unfold bind at 1, setAssignedTable.
  rewrite store_in_range
    by (change (assignedTable (fSt (seat g (entered env RECVPAY w))))
          with (assignedTable (fSt w)); lia).
  unfold bind at 1, setGroupRecord.
  cbn [groupRecord with_fSt].
  rewrite store_in_range
    by (change (groupRecord (seat g (entered env RECVPAY w)))
          with (<[Z.to_nat g := ATTABLE]> (groupRecord w));
        rewrite length_insert; lia).
  unfold bind at 1, waitForTableAt.
  destruct (Z.leb_spec 0 g), (Z.ltb_spec g (Z.of_nat MAXGROUPS)); try lia.
  cbv beta iota delta [andb ret]. rewrite orDie_semUp.
  match goal with
  | |- context [sem_ok env (semOps ?x)] =>
      change (semOps x) with (S (semOps w))
  end.
  destruct (sem_ok env (S (semOps w))); reflexivity.
Qed.


End TableDone.

(** ** The semaphore discipline of every operation *)

Section Discipline.

Context {pc : ProbConst}.
Variable env : environment.

Lemma orderly_from_bind {A B : Type} (d1 d2 : nat) (m : M A) (k : A -> M B)
    (w : world) :
  orderly_from env d1 w (m w) ->
  (forall a w1, m w = Ret a w1 -> orderly_from env d2 w1 (k a w1)) ->
  orderly_from env (d1 + d2) w (bind m k w).
Proof.
  unfold bind. destruct (m w) as [a w1|st w1|w1|]; simpl; intros Hm Hk; try exact Hm.
  destruct Hm as (Hle & Hok & Hn & Hd). specialize (Hk a w1 eq_refl).
  destruct (k a w1) as [b w2|st w2|w2|]; simpl in *; try exact Hk.
  - destruct Hk as (Hle' & Hok' & Hn' & Hd'). split; [lia|]. split.
    + intros j Hj. destruct (Nat.lt_ge_cases j (semOps w1)); [apply Hok|apply Hok']; lia.
    + split; [congruence|lia].
  - destruct Hk as (Hst & Hlt & Hok' & Hfail). split; [exact Hst|]. split; [lia|].
    split; [|exact Hfail].
    intros j Hj. destruct (Nat.lt_ge_cases j (semOps w1)); [apply Hok|apply Hok']; lia.
Qed.

Lemma orderly_bind {A B : Type} (d1 d2 : nat) (m : M A) (k : A -> M B) :
  orderly env d1 m -> (forall a, orderly env d2 (k a)) ->
  orderly env (d1 + d2) (bind m k).
Proof.
  intros Hm Hk w. apply orderly_from_bind; [apply Hm|]. intros a w1 _. apply Hk.
Qed.

(** A step that leaves the counters and [nGroups] alone. *)
Lemma orderly_quiet {A : Type} (m : M A) :
  (forall w, match m w with
             | Ret _ w' => semOps w' = semOps w /\ delivered w' = delivered w /\
                           nGroups (fSt w') = nGroups (fSt w)
             | Fault _ => True
             | Exit _ _ => False
             | OutOfFuel => False
             end) ->
  orderly env 0 m.
Proof.
  intros Hm w. specialize (Hm w). unfold orderly_from.
  destruct (m w) as [a w'|st w'|w'|]; try exact Hm; try contradiction.
  destruct Hm as (Hs & Hd & Hn). rewrite Hs, Hd. split; [lia|].
  split; [intros j Hj; lia|]. split; [exact Hn|lia].
Qed.

Lemma orderly_ret {A : Type} (a : A) : orderly env 0 (ret a).
Proof. apply orderly_quiet. intros w. simpl. repeat split. Qed.

Lemma orderly_fault {A : Type} : orderly env 0 (@fault A).
Proof. intros w. exact I. Qed.

Lemma orderly_gets {A : Type} (f : world -> A) : orderly env 0 (gets f).
Proof. apply orderly_quiet. intros w. simpl. repeat split. Qed.

Lemma orderly_perror (msg : string) : orderly env 0 (perror msg).
Proof. apply orderly_quiet. intros w. simpl. repeat split. Qed.

Lemma orderly_setStat (v : Z) : orderly env 0 (setStat v).
Proof. apply orderly_quiet. intros w. simpl. repeat split. Qed.

Lemma orderly_saveState : orderly env 0 saveState.
Proof. apply orderly_quiet. intros w. simpl. repeat split. Qed.

Lemma orderly_log (e : event) : orderly env 0 (modify (log e)).
Proof. apply orderly_quiet. intros w. simpl. repeat split. Qed.

Lemma orderly_groupsWaiting (f : Z -> Z) :
  orderly env 0
    (modify (with_fSt (fun s => set_groupsWaiting (f (groupsWaiting s)) s))).
Proof. apply orderly_quiet. intros w. simpl. repeat split. Qed.

Lemma orderly_assignedTableAt (i : Z) : orderly env 0 (assignedTableAt i).
Proof.
  apply orderly_quiet. intros w. unfold assignedTableAt.
  destruct (load (assignedTable (fSt w)) i); simpl; repeat split.
Qed.

Lemma orderly_setAssignedTable (i v : Z) : orderly env 0 (setAssignedTable i v).
Proof.
  apply orderly_quiet. intros w. unfold setAssignedTable.
  destruct (store (assignedTable (fSt w)) i v); simpl; repeat split.
Qed.

Lemma orderly_groupRecordAt (g : Z) : orderly env 0 (groupRecordAt g).
Proof.
  apply orderly_quiet. intros w. unfold groupRecordAt.
  destruct (load (groupRecord w) g); simpl; repeat split.
Qed.

Lemma orderly_setGroupRecord (g v : Z) : orderly env 0 (setGroupRecord g v).
Proof.
  apply orderly_quiet. intros w. unfold setGroupRecord.
  destruct (store (groupRecord w) g v); simpl; repeat split.
Qed.

Lemma orderly_waitForTableAt (n : Z) : orderly env 0 (waitForTableAt n).
Proof.
  unfold waitForTableAt.
  destruct ((0 <=? n) && (n <? Z.of_nat MAXGROUPS));
    [apply orderly_ret|apply orderly_fault].
Qed.

Lemma orderly_tableDoneAt (t : Z) : orderly env 0 (tableDoneAt t).
Proof.
  unfold tableDoneAt.
  destruct ((0 <=? t) && (t <? Z.of_nat NUMTABLES));
    [apply orderly_ret|apply orderly_fault].
Qed.

Lemma orderly_semDown (s : semaphore) (msg : string) :
  orderly env (requests s) (orDie (semDown env s) msg).
Proof.
  intros w. unfold orDie, semDown, bind.
  destruct (sem_ok env (semOps w)) eqn:Hok; simpl.
  - split; [destruct s; simpl; lia|]. split.
    + intros j Hj. assert (j = semOps w) as -> by (destruct s; simpl in Hj; lia).
      exact Hok.
    + destruct s; simpl; (split; [reflexivity|lia]).
  - split; [reflexivity|]. split; [lia|]. split; [intros j Hj; lia|].
    replace (S (semOps w) - 0)%nat with (S (semOps w)) by lia.
    replace (semOps w - 0)%nat with (semOps w) by lia. exact Hok.
Qed.

Lemma orderly_semUp (s : semaphore) (msg : string) :
  orderly env 0 (orDie (semUp env s) msg).
Proof.
  intros w. unfold orDie, semUp, bind.
  destruct (sem_ok env (semOps w)) eqn:Hok; simpl.
  - split; [lia|]. split.
    + intros j Hj. assert (j = semOps w) as -> by lia. exact Hok.
    + split; [reflexivity|lia].
  - split; [reflexivity|]. split; [lia|]. split; [intros j Hj; lia|].
    replace (semOps w - 0)%nat with (semOps w) by lia. exact Hok.
Qed.

Lemma orderly_modify (f : world -> world) :
  (forall w, semOps (f w) = semOps w /\ delivered (f w) = delivered w /\
             nGroups (fSt (f w)) = nGroups (fSt w)) ->
  orderly env 0 (modify f).
Proof. intros Hf. apply orderly_quiet. intros w. simpl. apply Hf. Qed.

Lemma orderly_semDown_mutex (msg : string) :
  orderly env 0 (orDie (semDown env mutex) msg).
Proof. exact (orderly_semDown mutex msg). Qed.

Lemma orderly_semDown_receptionistReq (msg : string) :
  orderly env 1 (orDie (semDown env receptionistReq) msg).
Proof. exact (orderly_semDown receptionistReq msg). Qed.

Create HintDb orderly discriminated.

#[local] Hint Resolve orderly_ret orderly_fault orderly_gets orderly_perror
  orderly_setStat orderly_saveState orderly_log orderly_assignedTableAt
  orderly_setAssignedTable orderly_groupRecordAt orderly_setGroupRecord
  orderly_waitForTableAt orderly_tableDoneAt orderly_semUp
  orderly_semDown_mutex : orderly.
#[local] Hint Extern 2 (orderly _ _ (bind _ _)) =>
  apply (orderly_bind 0 0); [|intros ?] : orderly.
#[local] Hint Extern 2 (orderly _ _ (if ?b then _ else _)) =>
  destruct b : orderly.
#[local] Hint Extern 3 (orderly _ _ (modify _)) =>
  apply orderly_modify; intros ?; repeat split : orderly.

Lemma orderly_tableScan (k : nat) (i t nt : Z) :
  orderly env 0 (tableScan k i t nt).
Proof.
  revert i t nt. induction k as [|k IH]; intros i t nt; cbn [tableScan];
    auto 10 with orderly.
Qed.

Lemma orderly_nextGroupScan (k : nat) (g : Z) :
  orderly env 0 (nextGroupScan k g).
Proof.
  revert g. induction k as [|k IH]; intros g; cbn [nextGroupScan];
    auto 10 with orderly.
Qed.

#[local] Hint Resolve orderly_tableScan orderly_nextGroupScan : orderly.

Lemma orderly_decideTableOrWait (n : Z) : orderly env 0 (decideTableOrWait n).
Proof. unfold decideTableOrWait. auto 10 with orderly. Qed.

Lemma orderly_decideNextGroup : orderly env 0 decideNextGroup.
Proof. unfold decideNextGroup. auto 10 with orderly. Qed.

#[local] Hint Resolve orderly_decideTableOrWait orderly_decideNextGroup : orderly.

Lemma orderly_provideTableOrWaitingRoom (n : Z) :
  orderly env 0 (provideTableOrWaitingRoom env n).
Proof. unfold provideTableOrWaitingRoom. auto 20 with orderly. Qed.

Lemma orderly_receivePayment (n : Z) : orderly env 0 (receivePayment env n).
Proof. unfold receivePayment. auto 30 with orderly. Qed.

Lemma orderly_waitForGroup : orderly env 1 (waitForGroup env).
Proof.
  unfold waitForGroup.
  apply (orderly_bind 0 1); [auto with orderly|intros _].
  apply (orderly_bind 0 1); [auto with orderly|intros _].
  apply (orderly_bind 0 1); [auto with orderly|intros _].
  apply (orderly_bind 0 1); [auto with orderly|intros _].
  apply (orderly_bind 1 0); [apply orderly_semDown_receptionistReq|intros _].
  auto 20 with orderly.
Qed.

Lemma orderly_dispatch (req : request) : orderly env 0 (dispatch env req).
Proof.
  unfold dispatch.
  destruct (reqType req =? TABLEREQ); [apply orderly_provideTableOrWaitingRoom|].
  destruct (reqType req =? BILLREQ); [apply orderly_receivePayment|].
  apply orderly_ret.
Qed.

(** The loop of [main]: one request per iteration, [2 * nGroups] of
    them in all. *)
Lemma lifeCycle_orderly (fuel : nat) (nReq : Z) (w : world) :
  0 <= nReq <= 2 * nGroups (fSt w) ->
  2 * nGroups (fSt w) <= INT_MAX ->
  (Z.to_nat (2 * nGroups (fSt w) - nReq) <= fuel)%nat ->
  orderly_from env (Z.to_nat (2 * nGroups (fSt w) - nReq)) w
    (lifeCycle env fuel nReq w).
Proof.
  revert nReq w. induction fuel as [|fuel IH]; intros nReq w Hreq Hmax Hfuel.
  - assert (nReq = 2 * nGroups (fSt w)) as -> by lia.
    cbn [lifeCycle]. unfold bind, gets.
    rewrite wrap_id by (unfold INT_MIN, INT_MAX in *; lia).
    replace (nGroups (fSt w) * 2) with (2 * nGroups (fSt w)) by lia.
    rewrite Z.ltb_irrefl, Z.sub_diag. apply orderly_ret.
  - cbn [lifeCycle]. unfold bind at 1, gets.
    rewrite wrap_id by (unfold INT_MIN, INT_MAX in *; lia).
    destruct (Z.ltb_spec nReq (nGroups (fSt w) * 2)) as [Hlt|Hge].
    + replace (Z.to_nat (2 * nGroups (fSt w) - nReq))
        with (1 + (0 + Z.to_nat (2 * nGroups (fSt w) - (nReq + 1))))%nat by lia.
      apply orderly_from_bind; [apply orderly_waitForGroup|].
      intros req w1 Hw1.
      pose proof (orderly_waitForGroup w) as H1. rewrite Hw1 in H1.
      destruct H1 as (_ & _ & Hn1 & _).
      apply orderly_from_bind; [apply orderly_dispatch|].
      intros [] w2 Hw2.
      pose proof (orderly_dispatch req w1) as H2. rewrite Hw2 in H2.
      destruct H2 as (_ & _ & Hn2 & _).
      rewrite wrap_id by (unfold INT_MIN, INT_MAX in *; lia).
      rewrite <- Hn1, <- Hn2. apply IH; rewrite ?Hn2, ?Hn1; lia.
    + assert (nReq = 2 * nGroups (fSt w)) as -> by lia.
      rewrite Z.sub_diag. apply orderly_ret.
Qed.

(** C2, as the code has it.  A request whose kind is neither TABLEREQ nor
    BILLREQ is passed over: the [switch] runs no handler and changes
    nothing, the request is counted like any other, and the loop goes on
    with the next one. *)
Theorem lifeCycle_unknown_kind (fuel : nat) (nReq : Z) (w w1 : world)
    (req : request) :
  nReq < wrap (nGroups (fSt w) * 2) ->
  waitForGroup env w = Ret req w1 ->
  reqType req <> TABLEREQ ->
  reqType req <> BILLREQ ->
  dispatch env req w1 = Ret tt w1 /\
  lifeCycle env (S fuel) nReq w = lifeCycle env fuel (wrap (nReq + 1)) w1.
Proof.
  intros Hlt Hwait Ht Hb.
  assert (Hd : dispatch env req w1 = Ret tt w1).
  { unfold dispatch.
    destruct (Z.eqb_spec (reqType req) TABLEREQ); [contradiction|].
    destruct (Z.eqb_spec (reqType req) BILLREQ); [contradiction|]. reflexivity. }
  split; [exact Hd|].
  cbn [lifeCycle]. unfold bind at 1, gets.
  destruct (Z.ltb_spec nReq (wrap (nGroups (fSt w) * 2))); [|lia].
  unfold bind at 1. rewrite Hwait. unfold bind at 1. rewrite Hd. reflexivity.
Qed.

(** C8, as the code has it.  With [nGroups] groups, [main] does not run
    out of the loop bound, and: when it returns it has received exactly
    [2 * nGroups] requests, no semaphore operation has failed, and the
    status is EXIT_SUCCESS if the unmapping of the shared region succeeded
    and EXIT_FAILURE if not; when it exits, the status is EXIT_FAILURE,
    which is not zero, and the last semaphore operation issued is the
    first that failed.  In particular, when no semaphore operation fails
    and no array is accessed outside its extent, [main] returns. *)
Theorem main_exit_status (fuel : nat) (w : world) :
  0 <= nGroups (fSt w) ->
  2 * nGroups (fSt w) <= INT_MAX ->
  (Z.to_nat (2 * nGroups (fSt w)) <= fuel)%nat ->
  match main env fuel w with
  | Ret status w' =>
      delivered w' = (delivered w + Z.to_nat (2 * nGroups (fSt w)))%nat /\
      sems_ok_between env (semOps w) (semOps w') /\
      status = (if dettach_ok env then EXIT_SUCCESS else EXIT_FAILURE)
  | Exit status w' =>
      status = EXIT_FAILURE /\ status <> 0 /\
      (semOps w < semOps w')%nat /\
      sems_ok_between env (semOps w) (semOps w' - 1) /\
      sem_ok env (semOps w' - 1) = false
  | Fault _ => True
  | OutOfFuel => False
  end /\
  ((forall k : nat, sem_ok env k = true) ->
   defined (main env fuel w) ->
   exists w' : world,
     main env fuel w =
       Ret (if dettach_ok env then EXIT_SUCCESS else EXIT_FAILURE) w' /\
     delivered w' = (delivered w + Z.to_nat (2 * nGroups (fSt w)))%nat).
Proof.
  intros Hn Hmax Hfuel.
  pose proof (lifeCycle_orderly fuel 0 w ltac:(lia) Hmax
                ltac:(rewrite Z.sub_0_r; exact Hfuel)) as Hloop.
  rewrite Z.sub_0_r in Hloop.
  assert (Hmain :
    match main env fuel w with
    | Ret status w' =>
        delivered w' = (delivered w + Z.to_nat (2 * nGroups (fSt w)))%nat /\
        sems_ok_between env (semOps w) (semOps w') /\
        status = (if dettach_ok env then EXIT_SUCCESS else EXIT_FAILURE)
    | Exit status w' =>
        status = EXIT_FAILURE /\ status <> 0 /\
        (semOps w < semOps w')%nat /\
        sems_ok_between env (semOps w) (semOps w' - 1) /\
        sem_ok env (semOps w' - 1) = false
    | Fault _ => True
    | OutOfFuel => False
    end).
  { unfold main. unfold bind at 1.
    destruct (lifeCycle env fuel 0 w) as [[] w1|st w1|w1|]; simpl in Hloop.
    - destruct Hloop as (_ & Hok & _ & Hd).
      unfold bind, shmemDettach. destruct (dettach_ok env); simpl.
      + split; [exact Hd|]. split; [exact Hok|reflexivity].
      + split; [exact Hd|]. split; [exact Hok|reflexivity].
    - destruct Hloop as (-> & Hlt & Hok & Hfail).
      split; [reflexivity|]. split; [discriminate|].
      split; [exact Hlt|]. split; assumption.
    - exact I.
    - exact Hloop. }
  split; [exact Hmain|].
  intros Hall Hdef.
  destruct (main env fuel w) as [st w'|st w'|w'|]; simpl in Hdef; try contradiction.
  - destruct Hmain as (Hd & _ & ->). exists w'. split; [reflexivity|exact Hd].
  - destruct Hmain as (_ & _ & _ & _ & Hfail). rewrite Hall in Hfail. discriminate.
Qed.

End Discipline.

Lemma decideNextGroup_contract_witness :
  decideNextGroup Demo.full = Ret (-1) Demo.full /\
  exists (g : Z) (w' : world),
    decideNextGroup Demo.queue = Ret g w' /\
    g = 2 /\ firstWaiting (groupRecord Demo.queue) g /\
    groupsWaiting (fSt w') = 1.
Proof.
  split.
  - apply (decideNextGroup_contract Demo.full);
      [reflexivity|vm_compute; split; [reflexivity|discriminate]|reflexivity].
  - destruct (proj1 (proj2 (@decideNextGroup_contract Demo.consts Demo.queue
                 ltac:(reflexivity)
                 ltac:(vm_compute; split; [reflexivity|discriminate])))
                 ltac:(discriminate))
      as [(g & w' & Hrun & Hfirst & _ & Hgw & _)|[Hnone _]].
    + exists g, w'. split; [exact Hrun|].
      split; [|split; [exact Hfirst|exact Hgw]].
      vm_compute in Hrun. inversion Hrun. reflexivity.
    + exfalso. apply (Hnone 2). reflexivity.
Defined.

(** C3 as it is written fails when the counter is ahead of the ledger.
    From the opening: groups 0 and 1 get the tables, group 2 asks twice
    and is counted twice, group 0 pays and group 2 is seated.  Now
    [groupsWaiting] is 1 and nobody waits: [decideNextGroup] returns -1 and
    takes nothing off the counter. *)
Lemma decideNextGroup_finds_nobody :
  exists w1 w2 w3 w4 w5 : world,
    provideTableOrWaitingRoom (Demo.calm []) 0 (Demo.opening 4) = Ret tt w1 /\
    provideTableOrWaitingRoom (Demo.calm []) 1 w1 = Ret tt w2 /\
    provideTableOrWaitingRoom (Demo.calm []) 2 w2 = Ret tt w3 /\
    provideTableOrWaitingRoom (Demo.calm []) 2 w3 = Ret tt w4 /\
    receivePayment (Demo.calm []) 0 w4 = Ret tt w5 /\
    groupsWaiting (fSt w5) = 1 /\
    groupsWaiting (fSt w5) <> 0 /\
    decideNextGroup w5 = Ret (-1) w5.
Proof.
  do 5 eexists.
  split; [vm_compute; reflexivity|].
  split; [vm_compute; reflexivity|].
  split; [vm_compute; reflexivity|].
  split; [vm_compute; reflexivity|].
  split; [vm_compute; reflexivity|].
  split; [reflexivity|]. split; [discriminate|]. vm_compute. reflexivity.
Qed.

Lemma decideNextGroup_no_candidate_idempotent_witness :
  Demo.full = Demo.full /\ decideNextGroup Demo.full = Ret (-1) Demo.full.
Proof.
  apply (decideNextGroup_no_candidate_idempotent Demo.full Demo.full).
  reflexivity.
Defined.

Lemma groupsWaiting_counts_the_waiting_witness :
  exists w1 w2 : world,
    provideTableOrWaitingRoom (Demo.calm []) 2 Demo.full = Ret tt w1 /\
    ledger_consistent w1 /\
    receivePayment (Demo.calm []) 0 w1 = Ret tt w2 /\
    ledger_consistent w2.
Proof.
  eexists. eexists.
  split; [vm_compute; reflexivity|].
  split.
  - eapply (proj1 (groupsWaiting_counts_the_waiting (Demo.calm []) 2 Demo.full _
                     ltac:(vm_compute; discriminate) ltac:(reflexivity))).
    + vm_compute. reflexivity.
    + vm_compute. discriminate.
  - match goal with
    | |- receivePayment _ _ ?w1 = _ /\ _ =>
        split; [vm_compute; reflexivity|];
        eapply (proj2 (groupsWaiting_counts_the_waiting (Demo.calm []) 0 w1 _
                         ltac:(vm_compute; discriminate) ltac:(reflexivity)))
    end.
    + vm_compute. reflexivity.
    + vm_compute. discriminate.
Defined.

(** C4 as it is written fails: from the opening, groups 0 and 1 are given
    the two tables and group 2 is made to wait; the counter agrees with the
    ledger.  A second table request of group 2 is answered like the first:
    [groupsWaiting] becomes 2 with one group waiting. *)
Lemma groupsWaiting_miscounts_a_repeated_request :
  exists w1 w2 w3 w4 : world,
    provideTableOrWaitingRoom (Demo.calm []) 0 (Demo.opening 4) = Ret tt w1 /\
    provideTableOrWaitingRoom (Demo.calm []) 1 w1 = Ret tt w2 /\
    provideTableOrWaitingRoom (Demo.calm []) 2 w2 = Ret tt w3 /\
    ledger_consistent w3 /\
    provideTableOrWaitingRoom (Demo.calm []) 2 w3 = Ret tt w4 /\
    groupsWaiting (fSt w4) = 2 /\
    countWaiting (groupRecord w4) = 1 /\
    ~ ledger_consistent w4.
Proof.
  do 4 eexists.
  split; [vm_compute; reflexivity|].
  split; [vm_compute; reflexivity|].
  split; [vm_compute; reflexivity|].
  split; [reflexivity|].
  split; [vm_compute; reflexivity|].
  split; [reflexivity|]. split; [reflexivity|].
  vm_compute. discriminate.
Qed.

Lemma lifeCycle_unknown_kind_witness :
  exists w1 : world,
    dispatch (Demo.calm []) (Demo.mkRequest 0 0) w1 = Ret tt w1 /\
    lifeCycle (Demo.calm []) 2 0 (Demo.opening 1) =
    lifeCycle (Demo.calm []) 1 (wrap (0 + 1)) w1.
Proof.
  eexists.
  eapply (lifeCycle_unknown_kind (Demo.calm []) 1 0 (Demo.opening 1)).
  - reflexivity.
  - vm_compute. reflexivity.
  - discriminate.
  - discriminate.
Defined.

(** C2 as it is written fails: a restaurant with one group receives two
    requests of kind 0, which is neither TABLEREQ nor BILLREQ.  Both are
    counted, no handler runs, and [main] returns EXIT_SUCCESS. *)
Lemma unknown_kind_is_not_fatal :
  exists w' : world,
    reqType (incoming (Demo.calm []) 0) <> TABLEREQ /\
    reqType (incoming (Demo.calm []) 0) <> BILLREQ /\
    main (Demo.calm []) 2 (Demo.opening 1) = Ret EXIT_SUCCESS w' /\
    delivered w' = 2%nat /\
    groupRecord w' = groupRecord (Demo.opening 1) /\
    assignedTable (fSt w') = assignedTable (fSt (Demo.opening 1)) /\
    groupsWaiting (fSt w') = 0.
Proof.
  eexists. split; [discriminate|]. split; [discriminate|].
  split; [vm_compute; reflexivity|]. repeat split.
Qed.

Lemma main_exit_status_witness :
  exists w' : world,
    main (Demo.calm Demo.service) 4 (Demo.opening 2) =
      Ret (if dettach_ok (Demo.calm Demo.service)
           then EXIT_SUCCESS else EXIT_FAILURE) w' /\
    delivered w' =
      (delivered (Demo.opening 2) +
       Z.to_nat (2 * nGroups (fSt (Demo.opening 2))))%nat.
Proof.
  pose proof (@main_exit_status Demo.consts (Demo.calm Demo.service) 4
                (Demo.opening 2)) as H.
  assert (h1 : 0 <= nGroups (fSt (Demo.opening 2)))
    by (vm_compute; discriminate).
  assert (h2 : 2 * nGroups (fSt (Demo.opening 2)) <= INT_MAX)
    by (vm_compute; discriminate).
  assert (h3 : (Z.to_nat (2 * nGroups (fSt (Demo.opening 2))) <= 4)%nat)
    by (vm_compute; lia).
  destruct (H h1 h2 h3) as [_ Hret]. apply Hret.
  - reflexivity.
  - vm_compute. exact I.
Defined.

(** C8 as it is written fails: two groups are served, no semaphore
    operation fails, the four requests are received; the unmapping of the
    shared region fails and [main] returns EXIT_FAILURE. *)
Lemma main_fails_on_unmapping :
  exists w' : world,
    (forall k : nat, sem_ok (Demo.stuck Demo.service) k = true) /\
    main (Demo.stuck Demo.service) 4 (Demo.opening 2) = Ret EXIT_FAILURE w' /\
    EXIT_FAILURE <> EXIT_SUCCESS /\
    delivered w' = 4%nat.
Proof.
  eexists. split; [reflexivity|]. split; [vm_compute; reflexivity|].
  split; [discriminate|reflexivity].
Qed.


Lemma waitForGroup_order_witness :
  exists w' : world,
    waitForGroup (Demo.calm Demo.service) (Demo.opening 2) =
      Ret (Demo.mkRequest 1 0) w' /\
    delivered w' = 1%nat.
Proof.
  destruct (waitForGroup_order (Demo.calm Demo.service) (Demo.opening 2))
    as (w' & Hrun & _ & _ & Hd).
  - intros k _. reflexivity.
  - exists w'. split; [exact Hrun|exact Hd].
Defined.

Lemma provideTableOrWaitingRoom_wait_branch_witness :
  exists w' : world,
    provideTableOrWaitingRoom (Demo.calm []) 2 Demo.full = Ret tt w' /\
    assignedTable (fSt w') = assignedTable (fSt Demo.full) /\
    groupRecord w' = <[Z.to_nat 2 := WAIT]> (groupRecord Demo.full).
Proof.
  assert (Hrun : exists w' : world,
            provideTableOrWaitingRoom (Demo.calm []) 2 Demo.full = Ret tt w')
    by (eexists; vm_compute; reflexivity).
  assert (Hdec : exists w2 : world,
            decideTableOrWait 2 (entered (Demo.calm []) ASSIGNTABLE Demo.full) =
            Ret (-1) w2)
    by (eexists; vm_compute; reflexivity).
  destruct Hrun as [w' Hrun]. destruct Hdec as [w2 Hdec]. exists w'.
  destruct (provideTableOrWaitingRoom_wait_branch (Demo.calm []) 2 Demo.full
              w' w2 Hrun Hdec) as (Ha & _ & _ & _ & Hr & _).
  split; [exact Hrun|]. split; [exact Ha|exact Hr].
Defined.


(** * Further properties of the code *)

(** ** The decision of decideTableOrWait *)

Section Decision.

Context {pc : ProbConst}.

Lemma load_app_length (pre l : list Z) (v : Z) :
  load (pre ++ v :: l) (Z.of_nat (length pre)) = Some v.
Proof.
  unfold load. destruct (Z.leb_spec 0 (Z.of_nat (length pre))); [|lia].
  rewrite Nat2Z.id. apply list_lookup_middle. reflexivity.
Qed.

(** The loop of [decideTableOrWait] from group [length pre] on, over the
    rest [l] of the table record. *)
Lemma tableScan_closed (l pre : list Z) (t nt : Z) (w : world) :
  assignedTable (fSt w) = pre ++ l ->
  tableScan (length l) (Z.of_nat (length pre)) t nt w =
  Ret (match occupied l with
       | [] => t
       | [v] => if nt =? 0 then 1 - v else -1
       | _ :: _ :: _ => -1
       end) w.
Proof.
  revert pre t nt. induction l as [|v l IH]; intros pre t nt Ha; [reflexivity|].
  cbn [length tableScan]. unfold bind at 1, assignedTableAt.
  rewrite Ha, load_app_length.
  assert (Hnext : forall t' nt',
    tableScan (length l) (Z.of_nat (length pre) + 1) t' nt' w =
    Ret (match occupied l with
         | [] => t'
         | [v'] => if nt' =? 0 then 1 - v' else -1
         | _ :: _ :: _ => -1
         end) w).
  { intros t' nt'. specialize (IH (pre ++ [v]) t' nt').
    rewrite length_app in IH. simpl length in IH.
    replace (Z.of_nat (length pre + 1)) with (Z.of_nat (length pre) + 1) in IH by lia.
    apply IH. rewrite Ha, <- app_assoc. reflexivity. }
  unfold occupied. cbn [List.filter]. unfold isTable at 1. fold (occupied l).
  destruct (Z.eqb_spec v 1) as [->|Hv1].
  - simpl. destruct (Z.eqb_spec nt 0) as [->|Hnt].
    + rewrite Hnext. simpl. destruct (occupied l) as [|v' [|v'' l']]; reflexivity.
    + destruct (occupied l) as [|v' [|v'' l']]; reflexivity.
  - destruct (Z.eqb_spec v 0) as [->|Hv0].
    + simpl. destruct (Z.eqb_spec nt 0) as [->|Hnt].
      * rewrite Hnext. simpl. destruct (occupied l) as [|v' [|v'' l']]; reflexivity.
      * destruct (occupied l) as [|v' [|v'' l']]; reflexivity.
    + simpl. apply Hnext.
Qed.

(** X1. The decision of [decideTableOrWait] depends on the entries 0 and
    1 of the table record only: with none it is table 0, with exactly one
    it is the other table, with two or more it is -1; the group asking is
    marked ATTABLE in the first two cases, and WAIT with one more group
    counted as waiting in the last. *)
Theorem decideTableOrWait_decision (n : Z) (w : world) :
  length (assignedTable (fSt w)) = MAXGROUPS ->
  0 <= n < Z.of_nat (length (groupRecord w)) ->
  decideTableOrWait n w =
  if tableFor (assignedTable (fSt w)) =? -1 then
    Ret (-1)
      (with_fSt (fun f => set_groupsWaiting (wrap (groupsWaiting f + 1)) f)
         (with_groupRecord (<[Z.to_nat n := WAIT]> (groupRecord w)) w))
  else
    Ret (tableFor (assignedTable (fSt w)))
      (with_groupRecord (<[Z.to_nat n := ATTABLE]> (groupRecord w)) w).
Proof.
  intros Hlen Hn. unfold decideTableOrWait. unfold bind at 1.
  assert (Hscan : tableScan MAXGROUPS 0 0 0 w =
                  Ret (tableFor (assignedTable (fSt w))) w).
  { rewrite <- Hlen.
    exact (tableScan_closed (assignedTable (fSt w)) [] 0 0 w eq_refl). }
  rewrite Hscan.
  destruct (tableFor (assignedTable (fSt w)) =? -1); simpl;
    unfold bind, setGroupRecord; rewrite (store_in_range _ _ _ Hn); reflexivity.
Qed.

(** X2. [decideTableOrWait] hands out table 0 or table 1 and nothing
    else, and never a table that a group holds. *)
Theorem decideTableOrWait_free_table (n t : Z) (w w' : world) :
  (length (assignedTable (fSt w)) <= MAXGROUPS)%nat ->
  decideTableOrWait n w = Ret t w' ->
  t = -1 \/
  ((t = 0 \/ t = 1) /\
   forall j : Z, load (assignedTable (fSt w)) j <> Some t).
Proof.
  intros Hlen Hrun. apply decideTableOrWait_Ret in Hrun as (Hscan & _ & _).
  destruct (tableScan_free MAXGROUPS 0 0 0 _ t _ ltac:(lia)
              ltac:(left; reflexivity) ltac:(intros; lia)
              ltac:(intros; lia) Hscan) as [Hx|[Ht Hfree]];
    [left; exact Hx|right].
  split; [exact Ht|]. intros j Hj. apply (Hfree j); [|exact Hj].
  pose proof (load_length _ _ _ _ Hlen Hj). lia.
Qed.

End Decision.

Lemma decideTableOrWait_decision_witness :
  decideTableOrWait 1 Demo.single =
  Ret 1 (with_groupRecord (<[Z.to_nat 1 := ATTABLE]> (groupRecord Demo.single))
           Demo.single).
Proof.
  apply (@decideTableOrWait_decision Demo.consts 1 Demo.single).
  - reflexivity.
  - vm_compute. split; [discriminate|reflexivity].
Defined.

Lemma decideTableOrWait_free_table_witness :
  (1 = -1) \/
  ((1 = 0 \/ 1 = 1) /\
   forall j : Z, load (assignedTable (fSt Demo.single)) j <> Some 1).
Proof.
  eapply (@decideTableOrWait_free_table Demo.consts 1 1 Demo.single).
  - vm_compute. lia.
  - vm_compute. reflexivity.
Defined.

(** ** The branches of the two handlers *)

Section Branches.

Context {pc : ProbConst}.
Variable env : environment.



(** X5. [receivePayment (n)] when [decideNextGroup] finds no candidate:
    the entry of [n] in the table record is cleared and nothing else
    changes there, the ledger and [groupsWaiting] are as they were, no
    [waitForTable] semaphore is raised, and [tableDone[t]] is raised for
    the table [t] that [n] held, after the lock is released. *)
Theorem receivePayment_no_candidate (n : Z) (w w' w2 : world) :
  receivePayment env n w = Ret tt w' ->
  decideNextGroup (entered env RECVPAY w) = Ret (-1) w2 ->
  exists t : Z,
    load (assignedTable (fSt w)) n = Some t /\
    assignedTable (fSt w') = <[Z.to_nat n := -1]> (assignedTable (fSt w)) /\
    groupRecord w' = groupRecord w /\
    groupsWaiting (fSt w') = groupsWaiting (fSt w) /\
    trace w' =
      trace w ++
      [EvDown mutex; EvStat RECVPAY;
       EvSaveState (set_receptionistStat RECVPAY (fSt w));
       EvUp mutex; EvUp (tableDone t)].
Proof.
  intros Hrun Hdec.
  destruct (receivePayment_Ret env n w w' Hrun)
    as (t & g' & w2' & Hl & Hdec' & Ht & Hcase).
  rewrite Hdec in Hdec'. inversion Hdec'; subst g' w2'. clear Hdec'.
  destruct (decideNextGroup_Ret _ _ _ Hdec) as [(_ & ->)|(_ & [Hf _] & _)];
    [|apply load_Some_range in Hf; lia].
  destruct Hcase as [(_ & ->)|(Hg' & _)]; [|contradiction].
  exists t. split; [exact Hl|].
  split; [reflexivity|]. split; [reflexivity|]. split; [reflexivity|].
  cbn. repeat rewrite <- app_assoc. reflexivity.
Qed.

(** X6. A table request followed by the payment, with nobody waiting:
    when group [n] had no table, is given one, and then pays while no
    candidate is found, the table record is back to what it was before the
    request. *)
Theorem grant_then_payment_restores_tables (n t : Z) (w w1 w2 w3 w4 : world) :
  load (assignedTable (fSt w)) n = Some (-1) ->
  provideTableOrWaitingRoom env n w = Ret tt w1 ->
  decideTableOrWait n (entered env ASSIGNTABLE w) = Ret t w2 ->
  t <> -1 ->
  receivePayment env n w1 = Ret tt w3 ->
  decideNextGroup (entered env RECVPAY w1) = Ret (-1) w4 ->
  assignedTable (fSt w3) = assignedTable (fSt w).
Proof.
  intros Hfree Hrun Hdec Ht Hpay Hnone.
  destruct (provideTableOrWaitingRoom_Ret env n w w1 Hrun) as (t' & w2' & Hdec' & Hcase).
  rewrite Hdec in Hdec'. inversion Hdec'; subst t' w2'. clear Hdec'.
  destruct (decideTableOrWait_Ret n _ _ _ Hdec) as (_ & _ & Hw2).
  destruct Hcase as [(Ht' & _)|(_ & _ & _ & Hw1)]; [contradiction|].
  destruct Hw2 as [(_ & Hw2)|(Ht' & _)]; [|contradiction].
  assert (Ha1 : assignedTable (fSt w1) =
                <[Z.to_nat n := t]> (assignedTable (fSt w))).
  { rewrite Hw1, Hw2. reflexivity. }
  destruct (receivePayment_Ret env n w1 w3 Hpay)
    as (t1 & g' & w4' & _ & Hdec' & _ & Hcase).
  rewrite Hnone in Hdec'. inversion Hdec'; subst g' w4'. clear Hdec'.
  destruct (decideNextGroup_Ret _ _ _ Hnone) as [(_ & Hw4)|(_ & [Hf _] & _)];
    [|apply load_Some_range in Hf; lia].
  destruct Hcase as [(_ & Hw3)|(Hg' & _)]; [|contradiction].
  assert (Ha3 : assignedTable (fSt w3) =
                <[Z.to_nat n := -1]> (assignedTable (fSt w1))).
  { rewrite Hw3, Hw4. reflexivity. }
  rewrite Ha3, Ha1, list_insert_insert_eq. apply list_insert_id.
  unfold load in Hfree. destruct (0 <=? n); [exact Hfree|discriminate].
Qed.

End Branches.



Lemma receivePayment_no_candidate_witness :
  exists (w' : world) (t : Z),
    receivePayment (Demo.calm []) 0 Demo.single = Ret tt w' /\
    load (assignedTable (fSt Demo.single)) 0 = Some t /\
    groupRecord w' = groupRecord Demo.single.
Proof.
  assert (Hrun : exists w' : world,
            receivePayment (Demo.calm []) 0 Demo.single = Ret tt w')
    by (eexists; vm_compute; reflexivity).
  assert (Hdec : exists w2 : world,
            decideNextGroup (entered (Demo.calm []) RECVPAY Demo.single) = Ret (-1) w2)
    by (eexists; vm_compute; reflexivity).
  destruct Hrun as [w' Hrun]. destruct Hdec as [w2 Hdec].
  destruct (receivePayment_no_candidate (Demo.calm []) 0 Demo.single w' w2
              Hrun Hdec) as (t & Hl & _ & Hr & _).
  exists w', t. split; [exact Hrun|]. split; [exact Hl|exact Hr].
Defined.

Lemma grant_then_payment_restores_tables_witness :
  exists w1 w3 : world,
    provideTableOrWaitingRoom (Demo.calm []) 0 (Demo.opening 4) = Ret tt w1 /\
    receivePayment (Demo.calm []) 0 w1 = Ret tt w3 /\
    assignedTable (fSt w3) = assignedTable (fSt (Demo.opening 4)).
Proof.
  assert (Hsteps : exists w1 w2 w3 w4 : world,
            provideTableOrWaitingRoom (Demo.calm []) 0 (Demo.opening 4) = Ret tt w1 /\
            decideTableOrWait 0 (entered (Demo.calm []) ASSIGNTABLE (Demo.opening 4)) =
              Ret 0 w2 /\
            receivePayment (Demo.calm []) 0 w1 = Ret tt w3 /\
            decideNextGroup (entered (Demo.calm []) RECVPAY w1) = Ret (-1) w4).
  { do 4 eexists.
    split; [vm_compute; reflexivity|].
    split; [vm_compute; reflexivity|].
    split; [vm_compute; reflexivity|vm_compute; reflexivity]. }
  destruct Hsteps as (w1 & w2 & w3 & w4 & H1 & H2 & H3 & H4).
  exists w1, w3. split; [exact H1|]. split; [exact H3|].
  apply (grant_then_payment_restores_tables (Demo.calm []) 0 0
           (Demo.opening 4) w1 w2 w3 w4); try assumption.
  - reflexivity.
  - discriminate.
Defined.

(** ** Failures of the semaphore operations *)

Section Failures.

Context {pc : ProbConst}.
Variable env : environment.

(** X7. When the [semDown] on the lock at the entry of an operation
    fails, the operation ends the process with EXIT_FAILURE after the
    [perror], and has touched neither the shared region nor the ledger.
    This holds for [waitForGroup], [provideTableOrWaitingRoom] and
    [receivePayment]. *)
Theorem failure_at_entry (n : Z) (w : world) :
  sem_ok env (semOps w) = false ->
  dies_at_entry (waitForGroup env w) w /\
  dies_at_entry (provideTableOrWaitingRoom env n w) w /\
  dies_at_entry (receivePayment env n w) w.
Proof.
  intros Hfail.
  assert (Hdied : forall A (r : result A),
            r = Exit EXIT_FAILURE
                  (died mutex "error on the up operation for semaphore access (WT)" w) ->
            dies_at_entry r w).
  { intros A r ->. eexists. split; [reflexivity|].
    split; [reflexivity|]. split; [reflexivity|].
    cbn. rewrite <- app_assoc. reflexivity. }
  split; [|split]; apply Hdied.
  - unfold waitForGroup. rewrite bind_orDie_semDown, Hfail. reflexivity.
  - unfold provideTableOrWaitingRoom. rewrite bind_orDie_semDown, Hfail. reflexivity.
  - unfold receivePayment. rewrite bind_orDie_semDown, Hfail. reflexivity.
Qed.

Lemma decideTableOrWait_outcome (n : Z) (w : world) :
  match decideTableOrWait n w with
  | Ret _ w' => trace w' = trace w /\ semOps w' = semOps w
  | Fault _ => True
  | Exit _ _ => False
  | OutOfFuel => False
  end.
Proof.
  unfold decideTableOrWait. unfold bind at 1.
  pose proof (tableScan_reads MAXGROUPS 0 0 0 w) as Hr.
  destruct (tableScan MAXGROUPS 0 0 0 w) as [x w1| | |]; try exact Hr; [|exact I].
  subst w1. destruct (negb (x =? -1)); unfold bind, setGroupRecord.
  - destruct (store (groupRecord w) n ATTABLE); simpl; [split; reflexivity|exact I].
  - destruct (store (groupRecord w) n WAIT); simpl; [split; reflexivity|exact I].
Qed.

Lemma not_in_log (tr : list event) (l : list event) (e : event) :
  Forall (fun x => x <> e) l -> e ∉ drop (length tr) (tr ++ l).
Proof.
  intros Hall. rewrite drop_app_length. intros Hin.
  rewrite Forall_forall in Hall. exact (Hall e Hin eq_refl).
Qed.

(** X8. [provideTableOrWaitingRoom] never releases the lock on its way
    to [exit]: whichever semaphore operation fails, what the call logged
    up to the exit holds no [semUp] on the lock. *)
Theorem provideTableOrWaitingRoom_exits_locked (n : Z) (w w' : world) (st : Z) :
  provideTableOrWaitingRoom env n w = Exit st w' ->
  st = EXIT_FAILURE /\ EvUp mutex ∉ logged w w'.
Proof.
  unfold provideTableOrWaitingRoom, logged. rewrite bind_orDie_semDown.
  destruct (sem_ok env (semOps w)).
  - rewrite bind_enter. fold (entered env ASSIGNTABLE w). unfold bind at 1.
    pose proof (decideTableOrWait_outcome n (entered env ASSIGNTABLE w)) as Hd.
    destruct (decideTableOrWait n (entered env ASSIGNTABLE w)) as [t w2|st2 w2|w2|];
      try contradiction; try discriminate.
    destruct Hd as [Htr _].
    assert (Htr2 : trace w2 =
              trace w ++ [EvDown mutex; EvStat ASSIGNTABLE;
                          EvSaveState (set_receptionistStat ASSIGNTABLE (fSt w))]).
    { rewrite Htr. cbn. repeat rewrite <- app_assoc. reflexivity. }
    destruct (negb (t =? -1)).
    + unfold bind at 1 2, setAssignedTable.
      destruct (store (assignedTable (fSt w2)) n t) as [a'|]; [|discriminate].
      unfold bind at 1, waitForTableAt.
      destruct ((0 <=? n) && (n <? Z.of_nat MAXGROUPS)); [|discriminate].
      unfold ret. rewrite orDie_semUp.
      match goal with
      | |- context [sem_ok env ?k] => destruct (sem_ok env k)
      end.
      * rewrite orDie_semUp.
        match goal with
        | |- context [sem_ok env ?k] => destruct (sem_ok env k)
        end; [discriminate|].
        intros Hex. inversion Hex; subst. split; [reflexivity|].
        cbn [trace died upped log tick with_fSt]. rewrite Htr2.
        repeat rewrite <- app_assoc. apply not_in_log.
        repeat constructor; discriminate.
      * intros Hex. inversion Hex; subst. split; [reflexivity|].
        cbn [trace died upped log tick with_fSt]. rewrite Htr2.
        repeat rewrite <- app_assoc. apply not_in_log.
        repeat constructor; discriminate.
    + unfold bind at 1, ret. rewrite orDie_semUp.
      destruct (sem_ok env (semOps w2)); [discriminate|].
      intros Hex. inversion Hex; subst. split; [reflexivity|].
      cbn [trace died upped log tick with_fSt]. rewrite Htr2.
      repeat rewrite <- app_assoc. apply not_in_log.
      repeat constructor; discriminate.
  - intros Hex. inversion Hex; subst. split; [reflexivity|].
    cbn [trace died upped log tick with_fSt].
    repeat rewrite <- app_assoc. apply not_in_log.
    repeat constructor; discriminate.
Qed.

(** X9. Each operation of the receptionist stops at the first semaphore
    operation that fails: when it returns, every semaphore operation it
    issued succeeded; when it ends the process, the status is
    EXIT_FAILURE and the operation issued last is the first that failed.
    No operation changes [nGroups]. *)
Theorem operations_stop_at_first_failure (n : Z) (w : world) :
  orderly_from env 1 w (waitForGroup env w) /\
  orderly_from env 0 w (provideTableOrWaitingRoom env n w) /\
  orderly_from env 0 w (receivePayment env n w).
Proof.
  split; [|split].
  - apply orderly_waitForGroup.
  - apply orderly_provideTableOrWaitingRoom.
  - apply orderly_receivePayment.
Qed.

End Failures.

Lemma failure_at_entry_witness :
  dies_at_entry (waitForGroup (Demo.failing 0 []) (Demo.opening 4)) (Demo.opening 4) /\
  dies_at_entry (provideTableOrWaitingRoom (Demo.failing 0 []) 0 (Demo.opening 4))
    (Demo.opening 4) /\
  dies_at_entry (receivePayment (Demo.failing 0 []) 0 (Demo.opening 4))
    (Demo.opening 4).
Proof.
  apply (failure_at_entry (Demo.failing 0 []) 0 (Demo.opening 4)). reflexivity.
Defined.

Lemma provideTableOrWaitingRoom_exits_locked_witness :
  exists w' : world,
    provideTableOrWaitingRoom (Demo.failing 1 []) 0 (Demo.opening 4) =
      Exit EXIT_FAILURE w' /\
    assignedTable (fSt w') = [0; -1; -1; -1] /\
    EvUp mutex ∉ logged (Demo.opening 4) w'.
Proof.
  assert (Hrun : exists w' : world,
            provideTableOrWaitingRoom (Demo.failing 1 []) 0 (Demo.opening 4) =
              Exit EXIT_FAILURE w' /\
            assignedTable (fSt w') = [0; -1; -1; -1]).
  { eexists. split; [vm_compute; reflexivity|reflexivity]. }
  destruct Hrun as (w' & Hrun & Ha). exists w'.
  split; [exact Hrun|]. split; [exact Ha|].
  apply (provideTableOrWaitingRoom_exits_locked (Demo.failing 1 []) 0
           (Demo.opening 4) w' EXIT_FAILURE Hrun).
Defined.

(** ** The table record over a run *)

Section Tables.

Context {pc : ProbConst}.
Variable env : environment.

Lemma table_ids_insert (a : list Z) (i : nat) (v : Z) :
  table_ids a -> v = -1 \/ v = 0 \/ v = 1 -> table_ids (<[i := v]> a).
Proof.
  intros Ha Hv j t Hj. unfold load in Hj.
  destruct (Z.leb_spec 0 j) as [Hj0|Hj0]; [|discriminate].
  apply list_lookup_insert_Some in Hj as [(_ & <- & _)|(_ & Hj)]; [exact Hv|].
  apply (Ha j t). unfold load. destruct (Z.leb_spec 0 j); [exact Hj|lia].
Qed.

(** One operation: the extents of the two arrays stay, and the table
    record keeps its shape. *)
Lemma tables_step (w w' : world) :
  booked_once w -> table_ids (assignedTable (fSt w)) ->
  (exists req, waitForGroup env w = Ret req w') \/
  (exists n, provideTableOrWaitingRoom env n w = Ret tt w') \/
  (exists n, receivePayment env n w = Ret tt w') ->
  length (assignedTable (fSt w')) = length (assignedTable (fSt w)) /\
  length (groupRecord w') = length (groupRecord w) /\
  table_ids (assignedTable (fSt w')).
Proof.
  intros [Hlen _] Hids [[req Hrun]|[[n Hrun]|[n Hrun]]].
  - apply waitForGroup_Ret in Hrun as (-> & _ & _). repeat split. exact Hids.
  - destruct (provideTableOrWaitingRoom_Ret env n w w' Hrun) as (t & w2 & Hdec & Hcase).
    destruct (decideTableOrWait_Ret n _ t w2 Hdec) as (Hscan & _ & Hw2).
    assert (Hw2' : assignedTable (fSt w2) = assignedTable (fSt w) /\
                   length (groupRecord w2) = length (groupRecord w)).
    { destruct Hw2 as [(_ & ->)|(_ & ->)]; split; try reflexivity;
        cbn [groupRecord with_fSt with_groupRecord]; apply length_insert. }
    destruct Hw2' as [Ha2 Hr2].
    destruct Hcase as [(Ht & ->)|(Ht & _ & _ & ->)].
    + change (assignedTable (fSt (upped mutex w2))) with (assignedTable (fSt w2)).
      change (groupRecord (upped mutex w2)) with (groupRecord w2).
      rewrite Ha2. repeat split; assumption.
    + change (assignedTable (fSt (upped mutex (granted n t w2))))
        with (<[Z.to_nat n := t]> (assignedTable (fSt w2))).
      change (groupRecord (upped mutex (granted n t w2))) with (groupRecord w2).
      rewrite Ha2, length_insert. split; [reflexivity|]. split; [exact Hr2|].
      apply table_ids_insert; [exact Hids|].
      destruct (tableScan_free MAXGROUPS 0 0 0 _ t _ ltac:(lia)
                  ltac:(left; reflexivity) ltac:(intros; lia)
                  ltac:(intros; lia) Hscan) as [Hx|[[-> | ->] _]];
        [contradiction|right; left; reflexivity|right; right; reflexivity].
  - destruct (receivePayment_Ret env n w w' Hrun) as (t & g & w2 & Hl & Hdec & Ht & Hcase).
    apply decideNextGroup_Ret in Hdec.
    assert (Hw2' : assignedTable (fSt w2) = assignedTable (fSt w) /\
                   length (groupRecord w2) = length (groupRecord w)).
    { destruct Hdec as [(_ & ->)|(_ & _ & ->)]; split; try reflexivity.
      cbn [groupRecord seat with_fSt with_groupRecord]. apply length_insert. }
    destruct Hw2' as [Ha2 Hr2].
    destruct Hcase as [(Hg & ->)|(Hg & _ & _ & _ & ->)].
    + change (assignedTable (fSt (vacated n t w2)))
        with (<[Z.to_nat n := -1]> (assignedTable (fSt w2))).
      change (groupRecord (vacated n t w2)) with (groupRecord w2).
      rewrite Ha2, length_insert. split; [reflexivity|]. split; [exact Hr2|].
      apply table_ids_insert; [exact Hids|left; reflexivity].
    + change (assignedTable (fSt (vacated n t (handedOver n g t w2))))
        with (<[Z.to_nat n := -1]> (<[Z.to_nat g := t]> (assignedTable (fSt w2)))).
      change (groupRecord (vacated n t (handedOver n g t w2)))
        with (<[Z.to_nat n := DONE]> (groupRecord w2)).
      rewrite Ha2, !length_insert. split; [reflexivity|]. split; [exact Hr2|].
      apply table_ids_insert; [|left; reflexivity].
      apply table_ids_insert; [exact Hids|]. exact (Hids n t Hl).
Qed.

(** X10. Over every run of the receptionist, from a table record that
    holds only -1, 0 and 1 and binds no table twice: the two arrays keep
    their extent, the table record still holds only -1, 0 and 1, and no
    three groups hold a table at once. *)
Theorem tables_over_a_run (w0 w : world) :
  (length (assignedTable (fSt w0)) <= MAXGROUPS)%nat ->
  no_double_booking (assignedTable (fSt w0)) ->
  table_ids (assignedTable (fSt w0)) ->
  reachable env w0 w ->
  length (assignedTable (fSt w)) = length (assignedTable (fSt w0)) /\
  length (groupRecord w) = length (groupRecord w0) /\
  table_ids (assignedTable (fSt w)) /\
  forall i j k ti tj tk : Z,
    load (assignedTable (fSt w)) i = Some ti -> ti <> -1 ->
    load (assignedTable (fSt w)) j = Some tj -> tj <> -1 ->
    load (assignedTable (fSt w)) k = Some tk -> tk <> -1 ->
    i = j \/ j = k \/ i = k.
Proof.
  intros Hlen Hndb Hids Hreach.
  assert (Hinv : booked_once w /\
                 length (assignedTable (fSt w)) = length (assignedTable (fSt w0)) /\
                 length (groupRecord w) = length (groupRecord w0) /\
                 table_ids (assignedTable (fSt w))).
  { induction Hreach as [|w w' req _ IH Hrun|w w' n _ IH Hrun|w w' n _ IH Hrun].
    - split; [split; assumption|]. repeat split. exact Hids.
    - destruct IH as (Hb & Hla & Hlr & Hi).
      assert (Hstep : (exists req, waitForGroup env w = Ret req w') \/
                      (exists n, provideTableOrWaitingRoom env n w = Ret tt w') \/
                      (exists n, receivePayment env n w = Ret tt w'))
        by (left; exists req; exact Hrun).
      destruct (tables_step w w' Hb Hi Hstep) as (Hla' & Hlr' & Hi').
      split; [exact (booked_once_step env w w' Hb Hstep)|].
      split; [congruence|]. split; [congruence|exact Hi'].
    - destruct IH as (Hb & Hla & Hlr & Hi).
      assert (Hstep : (exists req, waitForGroup env w = Ret req w') \/
                      (exists n, provideTableOrWaitingRoom env n w = Ret tt w') \/
                      (exists n, receivePayment env n w = Ret tt w'))
        by (right; left; exists n; exact Hrun).
      destruct (tables_step w w' Hb Hi Hstep) as (Hla' & Hlr' & Hi').
      split; [exact (booked_once_step env w w' Hb Hstep)|].
      split; [congruence|]. split; [congruence|exact Hi'].
    - destruct IH as (Hb & Hla & Hlr & Hi).
      assert (Hstep : (exists req, waitForGroup env w = Ret req w') \/
                      (exists n, provideTableOrWaitingRoom env n w = Ret tt w') \/
                      (exists n, receivePayment env n w = Ret tt w'))
        by (right; right; exists n; exact Hrun).
      destruct (tables_step w w' Hb Hi Hstep) as (Hla' & Hlr' & Hi').
      split; [exact (booked_once_step env w w' Hb Hstep)|].
      split; [congruence|]. split; [congruence|exact Hi']. }
  destruct Hinv as ([_ Hndb'] & Hla & Hlr & Hi).
  split; [exact Hla|]. split; [exact Hlr|]. split; [exact Hi|].
  intros i j k ti tj tk Hli Hti Hlj Htj Hlk Htk.
  pose proof (Hi i ti Hli) as Hvi. pose proof (Hi j tj Hlj) as Hvj.
  pose proof (Hi k tk Hlk) as Hvk.
  assert (Hsame : ti = tj \/ tj = tk \/ ti = tk) by lia.
  destruct Hsame as [He|[He|He]].
  - left. subst tj. exact (Hndb' i j ti Hli Hlj Hti).
  - right. left. subst tk. exact (Hndb' j k tj Hlj Hlk Htj).
  - right. right. subst tk. exact (Hndb' i k ti Hli Hlk Hti).
Qed.

End Tables.

Lemma tables_over_a_run_witness :
  exists w : world,
    reachable (Demo.calm []) (Demo.opening 4) w /\
    assignedTable (fSt w) = [-1; 1; 0; -1] /\
    length (groupRecord w) = length (groupRecord (Demo.opening 4)) /\
    table_ids (assignedTable (fSt w)).
Proof.
  assert (Hsteps : exists w1 w2 w3 w4 : world,
            provideTableOrWaitingRoom (Demo.calm []) 0 (Demo.opening 4) = Ret tt w1 /\
            provideTableOrWaitingRoom (Demo.calm []) 1 w1 = Ret tt w2 /\
            provideTableOrWaitingRoom (Demo.calm []) 2 w2 = Ret tt w3 /\
            receivePayment (Demo.calm []) 0 w3 = Ret tt w4 /\
            assignedTable (fSt w4) = [-1; 1; 0; -1]).
  { do 4 eexists.
    split; [vm_compute; reflexivity|].
    split; [vm_compute; reflexivity|].
    split; [vm_compute; reflexivity|].
    split; [vm_compute; reflexivity|reflexivity]. }
  destruct Hsteps as (w1 & w2 & w3 & w4 & H1 & H2 & H3 & H4 & Ht).
  assert (Hreach : reachable (Demo.calm []) (Demo.opening 4) w4).
  { apply (reach_receivePayment _ _ w3 w4 0); [|exact H4].
    apply (reach_provideTableOrWaitingRoom _ _ w2 w3 2); [|exact H3].
    apply (reach_provideTableOrWaitingRoom _ _ w1 w2 1); [|exact H2].
    apply (reach_provideTableOrWaitingRoom _ _ (Demo.opening 4) w1 0); [|exact H1].
    apply reach_start. }
  exists w4. split; [exact Hreach|]. split; [exact Ht|].
  assert (Hopen : Forall (fun v => v = -1) (assignedTable (fSt (Demo.opening 4))))
    by (repeat constructor).
  destruct (tables_over_a_run (Demo.calm []) (Demo.opening 4) w4) as (_ & Hlr & Hi & _).
  - vm_compute. lia.
  - apply no_double_booking_unassigned. exact Hopen.
  - intros i t Hi. left. unfold load in Hi. destruct (0 <=? i); [|discriminate].
    rewrite Forall_lookup in Hopen. exact (Hopen _ _ Hi).
  - exact Hreach.
  - split; [exact Hlr|exact Hi].
Defined.

(** ** A restaurant without groups *)

Section NoGroups.

Context {pc : ProbConst}.
Variable env : environment.


End NoGroups.


(** ** The initialisation of the ledger *)

Section InitGroupRecord.

Lemma initGroupRecord_loop (fuel : nat) (g : Z) (r : list Z) (w : world) :
  0 <= g ->
  nGroups (fSt w) <= Z.of_nat (length r) <= INT_MAX ->
  (Z.to_nat (nGroups (fSt w) - g) <= fuel)%nat ->
  exists r' : list Z,
    initGroupRecord fuel g (with_groupRecord r w) = Ret tt (with_groupRecord r' w) /\
    length r' = length r /\
    (forall j, g <= j < nGroups (fSt w) -> load r' j = Some TOARRIVE) /\
    (forall j, ~ (g <= j < nGroups (fSt w)) -> load r' j = load r j).
Proof.
  revert g r. induction fuel as [|fuel IH]; intros g r Hg Hn Hfuel.
  - exists r. cbn [initGroupRecord]. unfold bind, gets.
    cbn [fSt with_groupRecord].
    destruct (Z.ltb_spec g (nGroups (fSt w))); [lia|].
    split; [reflexivity|]. split; [reflexivity|]. split; [intros; lia|reflexivity].
  - cbn [initGroupRecord]. unfold bind at 1, gets. cbn [fSt with_groupRecord].
    destruct (Z.ltb_spec g (nGroups (fSt w))) as [Hlt|Hge].
    + unfold bind at 1, setGroupRecord. cbn [groupRecord with_groupRecord].
      rewrite store_in_range by lia.
      rewrite wrap_id by (unfold INT_MIN, INT_MAX in *; lia).
      destruct (IH (g + 1) (<[Z.to_nat g := TOARRIVE]> r) ltac:(lia)
                  ltac:(rewrite length_insert; lia) ltac:(lia))
        as (r' & Hrun & Hlen & Hin & Hout).
      exists r'. split; [exact Hrun|]. rewrite length_insert in Hlen.
      split; [exact Hlen|]. split.
      * intros j Hj. destruct (Z.eq_dec j g) as [->|Hne].
        -- rewrite Hout by lia. apply load_insert_eq. lia.
        -- apply Hin. lia.
      * intros j Hj. rewrite Hout by lia. apply load_insert_ne; lia.
    + exists r. split; [reflexivity|]. split; [reflexivity|].
      split; [intros; lia|reflexivity].
Qed.

Lemma initGroupRecord_past (fuel : nat) (g : Z) (r : list Z) (w : world) :
  0 <= g <= Z.of_nat (length r) ->
  Z.of_nat (length r) < nGroups (fSt w) ->
  Z.of_nat (length r) <= INT_MAX ->
  (Z.to_nat (Z.of_nat (length r) - g) < fuel)%nat ->
  exists r' : list Z,
    initGroupRecord fuel g (with_groupRecord r w) = Fault (with_groupRecord r' w) /\
    length r' = length r /\
    (forall j, g <= j < Z.of_nat (length r) -> load r' j = Some TOARRIVE) /\
    (forall j, j < g -> load r' j = load r j).
Proof.
  revert g r. induction fuel as [|fuel IH]; intros g r Hg Hn Hmax Hfuel; [lia|].
  cbn [initGroupRecord]. unfold bind at 1, gets. cbn [fSt with_groupRecord].
  destruct (Z.ltb_spec g (nGroups (fSt w))) as [Hlt|Hge]; [|lia].
  unfold bind at 1, setGroupRecord. cbn [groupRecord with_groupRecord].
  destruct (Z.eq_dec g (Z.of_nat (length r))) as [Heq|Hne].
  - destruct (store r g TOARRIVE) eqn:Hs.
    + apply store_Some_inv in Hs. lia.
    + exists r. split; [reflexivity|]. split; [reflexivity|].
      split; [intros; lia|reflexivity].
  - rewrite store_in_range by lia.
    rewrite wrap_id by (unfold INT_MIN, INT_MAX in *; lia).
    destruct (IH (g + 1) (<[Z.to_nat g := TOARRIVE]> r)
                ltac:(rewrite length_insert; lia)
                ltac:(rewrite length_insert; lia)
                ltac:(rewrite length_insert; lia)
                ltac:(rewrite length_insert; lia))
      as (r' & Hrun & Hlen & Hin & Hout).
    exists r'. split; [exact Hrun|]. rewrite length_insert in Hlen, Hin.
    split; [exact Hlen|]. split.
    + intros j Hj. destruct (Z.eq_dec j g) as [->|Hjg]; [|apply Hin; lia].
      rewrite Hout by lia. apply load_insert_eq. lia.
    + intros j Hj. rewrite Hout by lia. apply load_insert_ne; lia.
Qed.

(** X12. The loop that initialises the ledger, with at most as many
    groups as the ledger has entries: it returns, the entries of the
    groups below [nGroups] are TOARRIVE, the entries from [nGroups] on are
    as they were, and the shared region is not written. *)
Theorem initGroupRecord_fills (fuel : nat) (w : world) :
  nGroups (fSt w) <= Z.of_nat (length (groupRecord w)) <= INT_MAX ->
  (Z.to_nat (nGroups (fSt w)) <= fuel)%nat ->
  exists w' : world,
    initGroupRecord fuel 0 w = Ret tt w' /\
    fSt w' = fSt w /\ trace w' = trace w /\ semOps w' = semOps w /\
    length (groupRecord w') = length (groupRecord w) /\
    (forall j, 0 <= j < nGroups (fSt w) ->
               load (groupRecord w') j = Some TOARRIVE) /\
    (forall j, nGroups (fSt w) <= j ->
               load (groupRecord w') j = load (groupRecord w) j).
Proof.
  destruct w as [f r so dl tr]. cbn [fSt groupRecord]. intros Hn Hfuel.
  set (w := {| fSt := f; groupRecord := r; semOps := so; delivered := dl;
               trace := tr |}).
  destruct (initGroupRecord_loop fuel 0 r w ltac:(lia) Hn
              ltac:(rewrite Z.sub_0_r; exact Hfuel))
    as (r' & Hrun & Hlen & Hin & Hout).
  exists (with_groupRecord r' w). split; [exact Hrun|].
  split; [reflexivity|]. split; [reflexivity|]. split; [reflexivity|].
  split; [exact Hlen|]. split; [exact Hin|].
  intros j Hj. apply Hout. cbn [fSt w]. lia.
Qed.

(** X13. The same loop with more groups than the ledger has entries: it
    sets every entry to TOARRIVE and then writes past the end of
    [groupRecord]; the shared region is not written. *)
Theorem initGroupRecord_overruns (fuel : nat) (w : world) :
  Z.of_nat (length (groupRecord w)) < nGroups (fSt w) ->
  Z.of_nat (length (groupRecord w)) <= INT_MAX ->
  (length (groupRecord w) < fuel)%nat ->
  exists w' : world,
    initGroupRecord fuel 0 w = Fault w' /\
    fSt w' = fSt w /\
    length (groupRecord w') = length (groupRecord w) /\
    (forall j, 0 <= j < Z.of_nat (length (groupRecord w)) ->
               load (groupRecord w') j = Some TOARRIVE).
Proof.
  destruct w as [f r so dl tr]. cbn [fSt groupRecord]. intros Hn Hmax Hfuel.
  set (w := {| fSt := f; groupRecord := r; semOps := so; delivered := dl;
               trace := tr |}).
  destruct (initGroupRecord_past fuel 0 r w ltac:(lia) Hn Hmax ltac:(lia))
    as (r' & Hrun & Hlen & Hin & _).
  exists (with_groupRecord r' w). split; [exact Hrun|].
  split; [reflexivity|]. split; [exact Hlen|exact Hin].
Qed.

End InitGroupRecord.

Lemma initGroupRecord_fills_witness :
  exists w' : world,
    initGroupRecord 4 0 (Demo.mkWorld 2 0 [-1; -1; -1; -1] [DONE; WAIT; ATTABLE; DONE]) =
      Ret tt w' /\
    groupRecord w' = [TOARRIVE; TOARRIVE; ATTABLE; DONE].
Proof.
  destruct (initGroupRecord_fills 4
              (Demo.mkWorld 2 0 [-1; -1; -1; -1] [DONE; WAIT; ATTABLE; DONE]))
    as (w' & Hrun & _).
  - vm_compute. split; discriminate.
  - vm_compute. lia.
  - exists w'. split; [exact Hrun|].
    vm_compute in Hrun. inversion Hrun. reflexivity.
Defined.

Lemma initGroupRecord_overruns_witness :
  exists w' : world,
    initGroupRecord 5 0 (Demo.opening 5) = Fault w' /\
    fSt w' = fSt (Demo.opening 5).
Proof.
  destruct (initGroupRecord_overruns 5 (Demo.opening 5)) as (w' & Hrun & Hf & _).
  - vm_compute. reflexivity.
  - vm_compute. discriminate.
  - vm_compute. lia.
  - exists w'. split; [exact Hrun|exact Hf].
Defined.

(** ** The whole of main *)

Section WholeMain.

Context {pc : ProbConst}.
Variable sys : system.
Variable env : environment.

(** X14. [main] gets past its start exactly when it is given four
    arguments, the name of the log file fits [nFic], [strtol] reads the
    key argument to its end, and the three connections succeed; the
    identifiers are those of the connections to the key, cut to an
    [int]. *)
Theorem startup_attaches (argv : list string) (name : string) (semgid shmid : Z) :
  startup sys argv = Attached name semgid shmid <->
  exists (prog keyArg errName : string) (value : Z),
    argv = [prog; name; keyArg; errName] /\
    (String.length name < NFIC_SIZE)%nat /\
    strtol sys keyArg = (value, EmptyString) /\
    semgid = semConnect sys (wrap value) /\ semgid <> -1 /\
    shmid = shmemConnect sys (wrap value) /\ shmid <> -1 /\
    shmemAttach sys shmid <> -1.
Proof.
  split.
  - destruct argv as [|prog [|name' [|keyArg [|errName [|extra argv]]]]];
      try discriminate.
    unfold startup.
    destruct (Nat.leb_spec NFIC_SIZE (String.length name')) as [Hlong|Hfits];
      [discriminate|].
    destruct (strtol sys keyArg) as [value rest] eqn:Hkey.
    destruct (String.eqb_spec rest "") as [->|Hrest]; [|discriminate].
    cbn [negb].
    destruct (Z.eqb_spec (semConnect sys (wrap value)) (-1)) as [|Hsem];
      [discriminate|].
    destruct (Z.eqb_spec (shmemConnect sys (wrap value)) (-1)) as [|Hshm];
      [discriminate|].
    destruct (Z.eqb_spec (shmemAttach sys (shmemConnect sys (wrap value))) (-1))
      as [|Hatt]; [discriminate|].
    intros Hs. inversion Hs; subst.
    exists prog, keyArg, errName, value. repeat split; assumption.
  - intros (prog & keyArg & errName & value & -> & Hfits & Hkey & -> & Hsem & -> & Hshm & Hatt).
    unfold startup.
    destruct (Nat.leb_spec NFIC_SIZE (String.length name)); [lia|].
    rewrite Hkey. cbn [String.eqb negb].
    destruct (Z.eqb_spec (semConnect sys (wrap value)) (-1)); [contradiction|].
    destruct (Z.eqb_spec (shmemConnect sys (wrap value)) (-1)); [contradiction|].
    destruct (Z.eqb_spec (shmemAttach sys (shmemConnect sys (wrap value))) (-1));
      [contradiction|reflexivity].
Qed.

(** X15. With four arguments of which the name of the log file has more
    than 50 characters, [strcpy] writes past [nFic], whatever the other
    arguments are: the key is not looked at and nothing is connected. *)
Theorem receptionist_name_overrun (prog name keyArg errName : string)
    (fuel : nat) (w : world) :
  (50 < String.length name)%nat ->
  receptionist sys env [prog; name; keyArg; errName] fuel w = Fault w.
Proof.
  intros Hlong. unfold receptionist, startup.
  destruct (Nat.leb_spec NFIC_SIZE (String.length name)) as [_|Hfits];
    [reflexivity|unfold NFIC_SIZE in Hfits; lia].
Qed.

(** The life cycle and the exit status, once attached. *)
Lemma main_outcome (fuel : nat) (w : world) :
  0 <= nGroups (fSt w) ->
  2 * nGroups (fSt w) <= INT_MAX ->
  (Z.to_nat (2 * nGroups (fSt w)) <= fuel)%nat ->
  match main env fuel w with
  | Ret status w' =>
      delivered w' = (delivered w + Z.to_nat (2 * nGroups (fSt w)))%nat /\
      sems_ok_between env (semOps w) (semOps w') /\
      status = (if dettach_ok env then EXIT_SUCCESS else EXIT_FAILURE)
  | Exit status w' =>
      status = EXIT_FAILURE /\
      (semOps w < semOps w')%nat /\
      sems_ok_between env (semOps w) (semOps w' - 1) /\
      sem_ok env (semOps w' - 1) = false
  | Fault _ => True
  | OutOfFuel => False
  end.
Proof.
  intros Hn Hmax Hfuel.
  pose proof (lifeCycle_orderly env fuel 0 w ltac:(lia) Hmax
                ltac:(rewrite Z.sub_0_r; exact Hfuel)) as Hloop.
  rewrite Z.sub_0_r in Hloop. unfold main. unfold bind at 1.
  destruct (lifeCycle env fuel 0 w) as [[] w1|st w1|w1|]; simpl in Hloop.
  - destruct Hloop as (_ & Hok & _ & Hd).
    unfold bind, shmemDettach. destruct (dettach_ok env); simpl;
      (split; [exact Hd|]; split; [exact Hok|reflexivity]).
  - exact Hloop.
  - exact I.
  - exact Hloop.
Qed.

(** X16. The whole of [main].  When the start is refused it returns
    EXIT_FAILURE, and when the name overruns [nFic] it is undefined: in
    both cases no semaphore operation is issued and neither the shared
    region nor the ledger is touched.  Once attached, with at most as many
    groups as the ledger has entries: when [main] returns it has received
    exactly [2 * nGroups] requests, no semaphore operation has failed, and
    the status tells whether the unmapping succeeded; when it exits, the
    status is EXIT_FAILURE and the last semaphore operation issued is the
    first that failed. *)
Theorem receptionist_contract (argv : list string) (fuel : nat) (w : world) :
  0 <= nGroups (fSt w) <= Z.of_nat (length (groupRecord w)) ->
  Z.of_nat (length (groupRecord w)) <= INT_MAX ->
  2 * nGroups (fSt w) <= INT_MAX ->
  (Z.to_nat (2 * nGroups (fSt w)) <= fuel)%nat ->
  match startup sys argv with
  | Refused _ _ => receptionist sys env argv fuel w = Ret EXIT_FAILURE w
  | Overrun => receptionist sys env argv fuel w = Fault w
  | Attached _ _ _ =>
      match receptionist sys env argv fuel w with
      | Ret status w' =>
          delivered w' = (delivered w + Z.to_nat (2 * nGroups (fSt w)))%nat /\
          sems_ok_between env (semOps w) (semOps w') /\
          status = (if dettach_ok env then EXIT_SUCCESS else EXIT_FAILURE)
      | Exit status w' =>
          status = EXIT_FAILURE /\
          (semOps w < semOps w')%nat /\
          sems_ok_between env (semOps w) (semOps w' - 1) /\
          sem_ok env (semOps w' - 1) = false
      | Fault _ => True
      | OutOfFuel => False
      end
  end.
Proof.
  intros Hn Hlen Hmax Hfuel. unfold receptionist.
  destruct (startup sys argv) as [errFile message| |name semgid shmid];
    [reflexivity|reflexivity|].
  destruct w as [f r so dl tr]. cbn [fSt groupRecord] in *.
  set (w := {| fSt := f; groupRecord := r; semOps := so; delivered := dl;
               trace := tr |}).
  destruct (initGroupRecord_loop fuel 0 r w ltac:(lia) ltac:(cbn [fSt w]; lia)
              ltac:(cbn [fSt w]; lia)) as (r' & Hrun & _).
  change (with_groupRecord r w) with w in Hrun.
  unfold bind at 1. rewrite Hrun.
  exact (main_outcome fuel (with_groupRecord r' w) ltac:(cbn [fSt w with_groupRecord]; lia)
           Hmax Hfuel).
Qed.

End WholeMain.

Lemma startup_attaches_witness :
  startup Demo.machine ["semSharedMemReceptionist"; "log"; "1234"; "error_RT"]%string =
  Attached "log" 1235 1236.
Proof.
  apply (startup_attaches Demo.machine).
  exists "semSharedMemReceptionist"%string, "1234"%string, "error_RT"%string, 1234.
  repeat split; try discriminate. vm_compute. lia.
Defined.

Lemma receptionist_name_overrun_witness :
  receptionist Demo.machine (Demo.calm Demo.service)
    ["semSharedMemReceptionist";
     "a-name-for-the-log-file-that-does-not-fit-the-buffer";
     "1234"; "error_RT"]%string 4 (Demo.opening 2) =
  Fault (Demo.opening 2).
Proof.
  apply (receptionist_name_overrun Demo.machine (Demo.calm Demo.service)).
  vm_compute. lia.
Defined.

Lemma receptionist_contract_witness :
  exists w' : world,
    receptionist Demo.machine (Demo.calm Demo.service)
      ["semSharedMemReceptionist"; "log"; "1234"; "error_RT"]%string 4
      (Demo.opening 2) = Ret EXIT_SUCCESS w' /\
    delivered w' = 4%nat.
Proof.
  assert (Hrun : exists w' : world,
            receptionist Demo.machine (Demo.calm Demo.service)
              ["semSharedMemReceptionist"; "log"; "1234"; "error_RT"]%string 4
              (Demo.opening 2) = Ret EXIT_SUCCESS w')
    by (eexists; vm_compute; reflexivity).
  destruct Hrun as [w' Hrun]. exists w'. split; [exact Hrun|].
  pose proof (@receptionist_contract Demo.consts Demo.machine
                (Demo.calm Demo.service)
                ["semSharedMemReceptionist"; "log"; "1234"; "error_RT"]%string 4
                (Demo.opening 2)) as H.
  assert (h1 : 0 <= nGroups (fSt (Demo.opening 2)) <=
               Z.of_nat (length (groupRecord (Demo.opening 2))))
    by (vm_compute; split; discriminate).
  assert (h2 : Z.of_nat (length (groupRecord (Demo.opening 2))) <= INT_MAX)
    by (vm_compute; discriminate).
  assert (h3 : 2 * nGroups (fSt (Demo.opening 2)) <= INT_MAX)
    by (vm_compute; discriminate).
  assert (h4 : (Z.to_nat (2 * nGroups (fSt (Demo.opening 2))) <= 4)%nat)
    by (vm_compute; lia).
  specialize (H h1 h2 h3 h4).
  assert (Hs : startup Demo.machine
                 ["semSharedMemReceptionist"; "log"; "1234"; "error_RT"]%string =
               Attached "log" 1235 1236) by reflexivity.
  rewrite Hs, Hrun in H. destruct H as (Hd & _). exact Hd.
Defined.

(** ** The lock over a run *)

Section Lock.

Context {pc : ProbConst}.
Variable env : environment.

Lemma bracketed_app (l1 l2 : list event) (b b' : bool) :
  bracketed b l1 = Some b' -> bracketed b (l1 ++ l2) = bracketed b' l2.
Proof.
  revert b. induction l1 as [|e l1 IH]; intros b Hb; simpl in *.
  - inversion Hb. reflexivity.
  - destruct (lockStep b e); [apply IH; exact Hb|discriminate].
Qed.

Lemma in_order_refl (w : world) : in_order w w.
Proof. exists []. split; [rewrite app_nil_r; reflexivity|reflexivity]. Qed.

Lemma in_order_trans (w1 w2 w3 : world) :
  in_order w1 w2 -> in_order w2 w3 -> in_order w1 w3.
Proof.
  intros (d1 & H1 & Hb1) (d2 & H2 & Hb2). exists (d1 ++ d2). split.
  - rewrite H2, H1, app_assoc. reflexivity.
  - rewrite (bracketed_app d1 d2 false false Hb1). exact Hb2.
Qed.

Lemma waitForGroup_in_order (w w' : world) (req : request) :
  waitForGroup env w = Ret req w' -> in_order w w'.
Proof.
  intros Hrun. apply waitForGroup_Ret in Hrun as (-> & _ & _).
  eexists. split.
  - cbn. repeat rewrite <- app_assoc. reflexivity.
  - reflexivity.
Qed.

Lemma provideTableOrWaitingRoom_in_order (n : Z) (w w' : world) :
  provideTableOrWaitingRoom env n w = Ret tt w' -> in_order w w'.
Proof.
  intros Hrun.
  destruct (provideTableOrWaitingRoom_Ret env n w w' Hrun) as (t & w2 & Hdec & Hcase).
  destruct (decideTableOrWait_Ret n _ _ _ Hdec) as (_ & _ & Hw2).
  destruct Hw2 as [(_ & ->)|(_ & ->)];
    destruct Hcase as [(_ & ->)|(_ & _ & _ & ->)];
    (eexists; split; [cbn; repeat rewrite <- app_assoc; reflexivity|reflexivity]).
Qed.

Lemma receivePayment_in_order (n : Z) (w w' : world) :
  receivePayment env n w = Ret tt w' -> in_order w w'.
Proof.
  intros Hrun.
  destruct (receivePayment_Ret env n w w' Hrun) as (t & g & w2 & _ & Hdec & _ & Hcase).
  apply decideNextGroup_Ret in Hdec.
  destruct Hdec as [(_ & ->)|(_ & _ & ->)];
    destruct Hcase as [(_ & ->)|(_ & _ & _ & _ & ->)];
    (eexists; split; [cbn; repeat rewrite <- app_assoc; reflexivity|reflexivity]).
Qed.

Lemma dispatch_in_order (req : request) (w w' : world) :
  dispatch env req w = Ret tt w' -> in_order w w'.
Proof.
  unfold dispatch.
  destruct (reqType req =? TABLEREQ); [apply provideTableOrWaitingRoom_in_order|].
  destruct (reqType req =? BILLREQ); [apply receivePayment_in_order|].
  intros Hrun. inversion Hrun. apply in_order_refl.
Qed.

Lemma lifeCycle_in_order (fuel : nat) (nReq : Z) (w w' : world) :
  lifeCycle env fuel nReq w = Ret tt w' -> in_order w w'.
Proof.
  revert nReq w. induction fuel as [|fuel IH]; intros nReq w;
    cbn [lifeCycle]; unfold bind at 1, gets;
    destruct (nReq <? wrap (nGroups (fSt w) * 2)).
  - discriminate.
  - intros Hrun. inversion Hrun. apply in_order_refl.
  - intros Hrun.
    apply bind_Ret_inv in Hrun as (req & w1 & Hwait & Hrun).
    apply bind_Ret_inv in Hrun as ([] & w2 & Hdisp & Hrun).
    apply (in_order_trans w w1 w'); [exact (waitForGroup_in_order _ _ _ Hwait)|].
    apply (in_order_trans w1 w2 w'); [exact (dispatch_in_order _ _ _ Hdisp)|].
    exact (IH _ _ Hrun).
  - intros Hrun. inversion Hrun. apply in_order_refl.
Qed.

(** X17. In a run of [main] that returns, the lock is taken and
    released in turn and is free at the end.  The status is written, the
    state logged, the pending request read and a group signalled only
    while the lock is held; the receptionist waits for a request, frees
    the request slot, signals a table and unmaps the region only while it
    does not hold the lock. *)
Theorem run_is_in_order (fuel : nat) (w w' : world) (status : Z) :
  main env fuel w = Ret status w' -> in_order w w'.
Proof.
  unfold main. intros Hrun.
  apply bind_Ret_inv in Hrun as ([] & w1 & Hloop & Hrun).
  apply (in_order_trans w w1 w'); [exact (lifeCycle_in_order _ _ _ _ Hloop)|].
  unfold bind, shmemDettach in Hrun.
  destruct (dettach_ok env); simpl in Hrun; inversion Hrun; subst;
    (eexists; split; [cbn; repeat rewrite <- app_assoc; reflexivity|reflexivity]).
Qed.

End Lock.

Lemma run_is_in_order_witness :
  exists w' : world,
    main (Demo.calm Demo.service) 4 (Demo.opening 2) = Ret EXIT_SUCCESS w' /\
    in_order (Demo.opening 2) w'.
Proof.
  assert (Hrun : exists w' : world,
            main (Demo.calm Demo.service) 4 (Demo.opening 2) = Ret EXIT_SUCCESS w')
    by (eexists; vm_compute; reflexivity).
  destruct Hrun as [w' Hrun]. exists w'. split; [exact Hrun|].
  exact (run_is_in_order (Demo.calm Demo.service) 4 (Demo.opening 2) w'
           EXIT_SUCCESS Hrun).
Defined.

(** ** The operations return *)

Section Progress.

Context {pc : ProbConst}.
Variable env : environment.

(** X18. [waitForGroup] leaves the tables, the waiting counter,
    [nGroups] and the ledger as they were: when it returns, the shared
    region differs in the status, which is WAIT_FOR_REQUEST, and in the
    request slot, which holds the request returned. *)
Theorem waitForGroup_frame (w w' : world) (req : request) :
  waitForGroup env w = Ret req w' ->
  assignedTable (fSt w') = assignedTable (fSt w) /\
  groupsWaiting (fSt w') = groupsWaiting (fSt w) /\
  nGroups (fSt w') = nGroups (fSt w) /\
  groupRecord w' = groupRecord w /\
  receptionistStat (fSt w') = WAIT_FOR_REQUEST /\
  receptionistRequest (fSt w') = req.
Proof.
  intros Hrun. apply waitForGroup_Ret in Hrun as (-> & -> & _).
  repeat split.
Qed.

Lemma decideTableOrWait_returns (n : Z) (w : world) :
  length (assignedTable (fSt w)) = MAXGROUPS ->
  0 <= n < Z.of_nat (length (groupRecord w)) ->
  exists (t : Z) (w2 : world), decideTableOrWait n w = Ret t w2.
Proof.
  intros Hlen Hn. unfold decideTableOrWait. unfold bind at 1.
  assert (Hscan : exists t, tableScan MAXGROUPS 0 0 0 w = Ret t w).
  { eexists. rewrite <- Hlen.
    exact (tableScan_closed (assignedTable (fSt w)) [] 0 0 w eq_refl). }
  destruct Hscan as [t ->].
  destruct (negb (t =? -1)); unfold bind, setGroupRecord;
    rewrite (store_in_range _ _ _ Hn); eexists; eexists; reflexivity.
Qed.

(** X19. The two handlers return.  A table request from a group of the
    restaurant is served to the end when the three semaphore operations
    it may issue succeed; so is a payment from a group that holds one of
    the tables, when the four semaphore operations it may issue
    succeed. *)
Theorem handlers_return (n : Z) (w : world) :
  length (groupRecord w) = MAXGROUPS ->
  length (assignedTable (fSt w)) = MAXGROUPS ->
  0 <= n < Z.of_nat MAXGROUPS ->
  (sems_ok_between env (semOps w) (semOps w + 3) ->
   exists w' : world, provideTableOrWaitingRoom env n w = Ret tt w') /\
  (forall t : Z,
     load (assignedTable (fSt w)) n = Some t ->
     0 <= t < Z.of_nat NUMTABLES ->
     sems_ok_between env (semOps w) (semOps w + 4) ->
     exists w' : world, receivePayment env n w = Ret tt w').
Proof.
  intros Hlr Hla Hn. split.
  - intros Hok. unfold provideTableOrWaitingRoom.
    rewrite bind_orDie_semDown, (Hok (semOps w)) by lia.
    rewrite bind_enter. fold (entered env ASSIGNTABLE w). unfold bind at 1.
    destruct (decideTableOrWait_returns n (entered env ASSIGNTABLE w))
      as (t & w2 & Hdec); [exact Hla| |].
    { change (groupRecord (entered env ASSIGNTABLE w)) with (groupRecord w). lia. }
    rewrite Hdec.
    destruct (decideTableOrWait_Ret n _ _ _ Hdec) as (_ & _ & Hw2).
    assert (Hf : semOps w2 = S (semOps w) /\
                 length (assignedTable (fSt w2)) = MAXGROUPS).
    { destruct Hw2 as [(_ & ->)|(_ & ->)]; split; (reflexivity || exact Hla). }
    destruct Hf as [Hs2 Hl2].
    destruct (negb (t =? -1)).
    + unfold bind at 1 2, setAssignedTable.
      rewrite store_in_range by lia.
      unfold bind at 1, waitForTableAt.
      destruct (Z.leb_spec 0 n), (Z.ltb_spec n (Z.of_nat MAXGROUPS)); try lia.
      cbv beta iota delta [andb ret]. rewrite orDie_semUp.
      cbn [semOps with_fSt]. rewrite Hs2, (Hok (S (semOps w))) by lia.
      rewrite orDie_semUp. cbn [semOps upped log tick with_fSt].
      rewrite Hs2, (Hok (S (S (semOps w)))) by lia.
      eexists. reflexivity.
    + unfold bind at 1, ret. rewrite orDie_semUp.
      rewrite Hs2, (Hok (S (semOps w))) by lia. eexists. reflexivity.
  - intros t Hl Ht Hok.
    assert (Hin : (0 <=? t) && (t <? Z.of_nat NUMTABLES) = true).
    { destruct (Z.leb_spec 0 t), (Z.ltb_spec t (Z.of_nat NUMTABLES));
        (reflexivity || lia). }
    destruct (receivePayment_run env n t w Hlr Hla Hl (Hok (semOps w) ltac:(lia)))
      as [->|(g & Hg & ->)].
    + rewrite leaveTable_run
        by (change (assignedTable (fSt (entered env RECVPAY w)))
              with (assignedTable (fSt w)); lia).
      cbn zeta. change (semOps (entered env RECVPAY w)) with (S (semOps w)).
      rewrite (Hok (S (semOps w))), Hin, (Hok (S (S (semOps w)))) by lia.
      eexists. reflexivity.
    + rewrite (Hok (S (semOps w))) by lia.
      rewrite leaveTable_run
        by (cbn [assignedTable fSt handedOver upped log tick with_fSt
                 with_groupRecord set_assignedTable];
            rewrite length_insert;
            change (assignedTable (fSt (seat g (entered env RECVPAY w))))
              with (assignedTable (fSt w)); lia).
      cbn zeta.
      change (semOps (handedOver n g t (seat g (entered env RECVPAY w))))
        with (S (S (semOps w))).
      rewrite (Hok (S (S (semOps w)))), Hin, (Hok (S (S (S (semOps w))))) by lia.
      eexists. reflexivity.
Qed.

End Progress.

Lemma waitForGroup_frame_witness :
  exists w' : world,
    waitForGroup (Demo.calm Demo.service) Demo.queue = Ret (Demo.mkRequest 1 0) w' /\
    assignedTable (fSt w') = assignedTable (fSt Demo.queue) /\
    groupRecord w' = groupRecord Demo.queue.
Proof.
  assert (Hrun : exists w' : world,
            waitForGroup (Demo.calm Demo.service) Demo.queue =
            Ret (Demo.mkRequest 1 0) w')
    by (eexists; vm_compute; reflexivity).
  destruct Hrun as [w' Hrun]. exists w'.
  destruct (waitForGroup_frame (Demo.calm Demo.service) Demo.queue w' _ Hrun)
    as (Ha & _ & _ & Hr & _).
  split; [exact Hrun|]. split; [exact Ha|exact Hr].
Defined.

Lemma handlers_return_witness :
  (exists w' : world,
     provideTableOrWaitingRoom (Demo.calm []) 2 Demo.full = Ret tt w') /\
  (exists w' : world, receivePayment (Demo.calm []) 0 Demo.queue = Ret tt w').
Proof.
  destruct (@handlers_return Demo.consts (Demo.calm []) 2 Demo.full eq_refl eq_refl)
    as [Hp _]; [vm_compute; split; [discriminate|reflexivity]|].
  destruct (@handlers_return Demo.consts (Demo.calm []) 0 Demo.queue eq_refl eq_refl)
    as [_ Hr]; [vm_compute; split; [discriminate|reflexivity]|].
  split.
  - apply Hp. intros k _. reflexivity.
  - apply (Hr 0); [reflexivity|vm_compute; split; [discriminate|reflexivity]|].
    intros k _. reflexivity.
Defined.
